(** * label_sync: classification, reconciliation and application of labels

    A shallow embedding of [label_sync/main.go] and proofs about it.

    Conventions of the embedding:
    - Go [string] is [string]; [strings.ToLower] is modelled on ASCII
      names (bytes outside [A-Z] are kept as they are);
    - [time.Time] is an instant on the integer time line ([Z]), and
      [now.After(t)] is [t < now];
    - a Go [map[string]T] is a [gmap string T]; the order in which a
      [range] statement visits a map, which Go leaves unspecified, is an
      explicit [RangeOrder] argument;
    - a Go [error] is its message; [nil] is [None];
    - [*Label] pointers are only read through, so a pointer is modelled
      by the value it points to ([option Label], [None] for [nil]);
    - logging calls are left out. *)

From Stdlib Require Import ZArith Ascii String.
From stdpp Require Import gmap strings list fin_maps.

Local Open Scope Z_scope.

Set Warnings "-register-all,-clear-no-such-hyp".

(** ** Data model *)

(** [type Label struct].  [DeleteAfter] is a [*time.Time], [parent] a
    [*Label] into the configuration. *)
Inductive Label : Type := mkLabel {
  Name : string;
  Color : string;
  Description : string;
  Target : string;
  ProwPlugin : string;
  AddedBy : string;
  Previously : list Label;
  DeleteAfter : option Z;
  parent : option Label
}.

(** [type Configuration struct]. *)
Record Configuration : Type := mkConfiguration {
  Labels : list Label
}.

(** The part of package [github] that label_sync reads.  An issue number
    is only passed on to the client, so Go's [int] is [Z]. *)
Module github.

Record Label : Type := mkLabel {
  Name : string;
  Description : string;
  Color : string
}.

Record Issue : Type := mkIssue {
  Number : Z
}.

End github.

(** [type Update struct]. *)
Record Update : Type := mkUpdate {
  repo : string;
  Why : string;
  Wanted : option Label;
  Current : option Label
}.

(** [Label{Name: n, Description: d, Color: c}]: the other fields are zero. *)
Definition plainLabel (n d c : string) : Label :=
  mkLabel n c d "" "" "" [] None None.

(** ** strings.ToLower *)

Definition lower_ascii (c : ascii) : ascii :=
  let n := nat_of_ascii c in
  if ((65 <=? n)%nat && (n <=? 90)%nat)%bool then ascii_of_nat (n + 32) else c.

Fixpoint ToLower (s : string) : string :=
  match s with
  | EmptyString => EmptyString
  | String c r => String (lower_ascii c) (ToLower r)
  end.

(** ** validate *)

(** [func validate(labels []Label, parent string, seen map[string]string) error].
    The map [seen] is updated in place, so the model returns it next to
    the error.  [validateLabel] is the body of the [for] loop for one
    label [l], with the recursive call on [l.Previously] written as a
    local loop (the recursion is on the label tree); [validate] is the
    loop itself.  [validateLabel_eq] below restates the pair as the source
    has it. *)
Fixpoint validateLabel (l : Label) (parent : string)
    (seen : gmap string string) {struct l}
    : gmap string string * option string :=
  let name := ToLower (Name l) in
  let path := parent +:+ "." +:+ name in
  match seen !! name with
  | Some other =>
      (seen, Some ("duplicate label " +:+ name +:+ " at " +:+ path
                   +:+ " and " +:+ other))
  | None =>
      (fix validate (labels : list Label) (seen : gmap string string)
         : gmap string string * option string :=
         match labels with
         | [] => (seen, None)
         | l' :: rest =>
             match validateLabel l' path seen with
             | (seen', Some err) => (seen', Some err)
             | (seen', None) => validate rest seen'
             end
         end) (Previously l) (<[name := path]> seen)
  end.

Fixpoint validate (labels : list Label) (parent : string)
    (seen : gmap string string) {struct labels}
    : gmap string string * option string :=
  match labels with
  | [] => (seen, None)
  | l :: rest =>
      match validateLabel l parent seen with
      | (seen', Some err) => (seen', Some err)
      | (seen', None) => validate rest parent seen'
      end
  end.

(** [func (c Configuration) validate() error]. *)
Definition Configuration_validate (c : Configuration) : option string :=
  match validate (Labels c) "" ∅ with
  | (_, Some err) => Some ("invalid config: " +:+ err)
  | (_, None) => None
  end.

(** ** ClassifyLabels *)

(** The three maps [required], [archaic] and [dead] that ClassifyLabels
    fills in place. *)
Record Classes : Type := mkClasses {
  required : gmap string Label;
  archaic : gmap string Label;
  dead : gmap string Label
}.

(** [l.parent = parent] on the loop's copy of the label. *)
Definition set_parent (l : Label) (p : option Label) : Label :=
  mkLabel (Name l) (Color l) (Description l) (Target l) (ProwPlugin l)
          (AddedBy l) (Previously l) (DeleteAfter l) p.

(** [now.After(t)]. *)
Definition After (now t : Z) : bool := t <? now.

(** The [switch] of ClassifyLabels for one label. *)
Definition classify (l : Label) (now : Z) (parent : option Label)
    (c : Classes) : Classes :=
  let lower := ToLower (Name l) in
  match parent, DeleteAfter l with
  | None, None =>
      mkClasses (<[lower := l]> (required c)) (archaic c) (dead c)
  | _, _ =>
      if match DeleteAfter l with Some t => After now t | None => false end
      then mkClasses (required c) (archaic c) (<[lower := l]> (dead c))
      else match parent with
           | Some _ =>
               mkClasses (required c)
                         (<[lower := set_parent l parent]> (archaic c))
                         (dead c)
           | None => c
           end
  end.

(** [first := parent; if first == nil { first = &labels[i] }]. *)
Definition first_of (parent : option Label) (l : Label) : option Label :=
  match parent with
  | Some p => Some p
  | None => Some l
  end.

(** [func ClassifyLabels(labels []Label, required, archaic, dead
    map[string]Label, now time.Time, parent *Label)].  As for [validate],
    [classifyLabel] is the loop body for one label and [ClassifyLabels]
    the loop. *)
Fixpoint classifyLabel (l : Label) (c : Classes) (now : Z)
    (parent : option Label) {struct l} : Classes :=
  let first := first_of parent l in
  (fix ClassifyLabels (labels : list Label) (c : Classes) : Classes :=
     match labels with
     | [] => c
     | l' :: rest => ClassifyLabels rest (classifyLabel l' c now first)
     end) (Previously l) (classify l now parent c).

Fixpoint ClassifyLabels (labels : list Label) (c : Classes) (now : Z)
    (parent : option Label) {struct labels} : Classes :=
  match labels with
  | [] => c
  | l :: rest =>
      ClassifyLabels rest (classifyLabel l c now parent) now parent
  end.

(** ** The update constructors *)

(** [func kill(repo string, label Label) Update]. *)
Definition kill (repo : string) (label : Label) : Update :=
  mkUpdate repo "dead" None (Some label).

(** [func create(repo string, label Label) Update]. *)
Definition create (repo : string) (label : Label) : Update :=
  mkUpdate repo "missing" (Some label) None.

(** [func rename(repo string, previous, wanted Label) Update]. *)
Definition rename (repo : string) (previous wanted : Label) : Update :=
  mkUpdate repo "rename" (Some wanted) (Some previous).

(** [func change(repo string, label Label) Update]. *)
Definition change (repo : string) (label : Label) : Update :=
  mkUpdate repo "change" (Some label) (Some label).

(** [func move(repo string, previous, wanted Label) Update]. *)
Definition move (repo : string) (previous wanted : Label) : Update :=
  mkUpdate repo "migrate" (Some wanted) (Some previous).

(** ** SyncLabels *)

(** The order in which each [range] over a map of SyncLabels visits the
    entries.  [range_archaic] and [range_required] run once per
    repository, so they take the repository's name. *)
Record RangeOrder : Type := mkRangeOrder {
  range_repos :
    gmap string (list github.Label) → list (string * list github.Label);
  range_archaic : string → gmap string Label → list (string * Label);
  range_required : string → gmap string Label → list (string * Label)
}.

(** A [range] visits every entry of the map exactly once. *)
Definition range_ok (o : RangeOrder) : Prop :=
  (∀ m, range_repos o m ≡ₚ map_to_list m) ∧
  (∀ r m, range_archaic o r m ≡ₚ map_to_list m) ∧
  (∀ r m, range_required o r m ≡ₚ map_to_list m).

(** One possible order: that of [map_to_list]. *)
Definition list_order : RangeOrder :=
  mkRangeOrder map_to_list (λ _, map_to_list) (λ _, map_to_list).

(** The state of the loops that SyncLabels runs for one repository. *)
Record RepoState : Type := mkRepoState {
  current : gmap string Label;
  actions : list Update;
  moveActions : list Update
}.

(** "Convert github.Label to Label". *)
Definition convert (repoLabels : list github.Label) : list Label :=
  foldl (λ labels l,
           labels ++ [plainLabel (github.Name l) (github.Description l)
                                 (github.Color l)])
        [] repoLabels.

(** Body of the loop that fills [current] and deletes dead labels. *)
Definition kill_step (dead : gmap string Label) (repo : string)
    (st : RepoState) (l : Label) : RepoState :=
  let lower := ToLower (Name l) in
  let actions :=
    match dead !! lower with
    | Some _ => actions st ++ [kill repo l]
    | None => actions st
    end in
  mkRepoState (<[lower := l]> (current st)) actions (moveActions st).

(** Body of the loop over [archaic].  Every label that ClassifyLabels
    stores in [archaic] has its [parent] set ([archaic_parent] below), so
    [l.parent] is never [nil] here; on [nil], where Go would stop with a
    nil dereference, the model leaves the state as it is. *)
Definition migrate_step (repo : string) (st : RepoState)
    (e : string * Label) : RepoState :=
  let '(name, l) := e in
  match current st !! name with
  | None => st
  | Some cur =>
      match parent l with
      | None => st
      | Some p =>
          let desired := plainLabel (Name p) (Description l) (Color p) in
          let desiredName := ToLower (Name p) in
          match current st !! desiredName with
          | Some _ =>
              mkRepoState (current st) (actions st)
                          (moveActions st ++ [move repo cur desired])
          | None =>
              mkRepoState (<[desiredName := desired]> (current st))
                          (actions st ++ [rename repo cur desired])
                          (moveActions st)
          end
      end
  end.

(** Body of the loop over [required]. *)
Definition required_step (repo : string) (st : RepoState)
    (e : string * Label) : RepoState :=
  let '(name, l) := e in
  let emit a := mkRepoState (current st) (actions st ++ [a])
                            (moveActions st) in
  match current st !! name with
  | None => emit (create repo l)
  | Some cur =>
      if decide (Name l ≠ Name cur) then emit (rename repo cur l)
      else if decide (Color l ≠ Color cur) then emit (change repo l)
      else if decide (Description l ≠ Description cur)
           then emit (change repo l)
      else st
  end.

(** The body of "Process all repos": [st] holds [validationErrors] and
    the list [actions] shared by all repositories (here [allActions],
    since [actions] names the field of [RepoState]). *)
Definition syncRepo (o : RangeOrder) (c : Classes)
    (st : list string * list Update) (e : string * list github.Label)
    : list string * list Update :=
  let '(validationErrors, allActions) := st in
  let '(repo, repoLabels) := e in
  let labels := convert repoLabels in
  match validate labels "" ∅ with
  | (_, Some err) =>
      (validationErrors ++ ["invalid labels in " +:+ repo +:+ ": " +:+ err],
       allActions)
  | (_, None) =>
      let s1 := foldl (kill_step (dead c) repo)
                      (mkRepoState ∅ allActions []) labels in
      let s2 := foldl (migrate_step repo) s1
                      (range_archaic o repo (archaic c)) in
      let s3 := foldl (required_step repo) s2
                      (range_required o repo (required c)) in
      (validationErrors,
       foldl (λ acts a, acts ++ [a]) (actions s3) (moveActions s3))
  end.

(** [u[a.repo] = append(u[a.repo], a)]. *)
Definition group (u : gmap string (list Update)) (a : Update)
    : gmap string (list Update) :=
  <[repo a := default [] (u !! repo a) ++ [a]]> u.

(** [%v] of an [[]error]. *)
Definition fmt_errors (errs : list string) : string :=
  "[" +:+ String.concat " " errs +:+ "]".

(** [func SyncLabels(config Configuration, repos RepoLabels)
    (RepoUpdates, error)].  [now] is the value that [time.Now()] returns
    and [o] the order of the [range] loops.  The [nil] map returned on an
    invalid configuration is the empty map. *)
Definition SyncLabels (o : RangeOrder) (now : Z) (config : Configuration)
    (repos : gmap string (list github.Label))
    : gmap string (list Update) * option string :=
  match Configuration_validate config with
  | Some err => (∅, Some ("invalid config: " +:+ err))
  | None =>
      let c := ClassifyLabels (Labels config) (mkClasses ∅ ∅ ∅) now None in
      let '(validationErrors, allActions) :=
        foldl (syncRepo o c) ([], []) (range_repos o repos) in
      let u := foldl group ∅ allActions in
      (u, match validationErrors with
          | [] => None
          | _ => Some ("label validation failed: "
                       +:+ fmt_errors validationErrors)
          end)
  end.

(** ** DoUpdates *)

(** [type client interface], the methods DoUpdates calls.  A client has a
    state [St] (the remote repositories, a script of replies, ...); a call
    returns its results and the next state. *)
Class client (St : Type) : Type := mkClient {
  AddRepoLabel :
    string → string → string → string → string → St → option string * St;
  UpdateRepoLabel :
    string → string → string → string → string → string → St
    → option string * St;
  DeleteRepoLabel : string → string → string → St → option string * St;
  AddLabel : string → string → Z → string → St → option string * St;
  RemoveLabel : string → string → Z → string → St → option string * St;
  FindIssues :
    string → string → bool → St
    → (list github.Issue * option string) * St
}.

(** [type repoUpdate struct]. *)
Record repoUpdate : Type := mkRepoUpdate {
  ru_repo : string;
  update : Update
}.

Definition dquote : string := String (ascii_of_nat 34) EmptyString.

(** [fmt.Sprintf("is:open repo:%s/%s label:\"%s\" -label:\"%s\"", ...)]. *)
Definition migrate_query (org repo cur wanted : string) : string :=
  "is:open repo:" +:+ org +:+ "/" +:+ repo +:+ " label:" +:+ dquote
  +:+ cur +:+ dquote +:+ " -label:" +:+ dquote +:+ wanted +:+ dquote.

(** [errChan <- err] under [if err != nil]: [errs] are the errors sent so
    far. *)
Definition send (errs : list string) (err : option string) : list string :=
  match err with
  | Some e => errs ++ [e]
  | None => errs
  end.

Section DoUpdates.
Context {St : Type} `{gc : client St}.

(** Body of [for _, i := range issues] of the "migrate" case. *)
Definition migrate_issue (org repo : string) (cur wanted : Label)
    (acc : list string * St) (i : github.Issue) : list string * St :=
  let '(errs, s) := acc in
  match AddLabel org repo (github.Number i) (Name wanted) s with
  | (Some e, s) => (errs ++ [e], s)
  | (None, s) =>
      let '(err, s) :=
        RemoveLabel org repo (github.Number i) (Name cur) s in
      (send errs err, s)
  end.

(** Body of [for item := range updates] of a worker of DoUpdates: the
    errors it sends to [errChan] and the client's next state.  The
    result is [None] where Go stops with a nil dereference
    ([update.Wanted] or [update.Current] is [nil] and is read). *)
Definition runUpdate (org : string) (item : repoUpdate) (s : St)
    : option (list string) * St :=
  let repo := ru_repo item in
  let update := update item in
  if decide (Why update = "missing") then
    match Wanted update with
    | None => (None, s)
    | Some w =>
        let '(err, s) :=
          AddRepoLabel org repo (Name w) (Description w) (Color w) s in
        (Some (send [] err), s)
    end
  else if decide (Why update = "change" ∨ Why update = "rename") then
    match Current update, Wanted update with
    | Some c, Some w =>
        let '(err, s) :=
          UpdateRepoLabel org repo (Name c) (Name w) (Description w)
                          (Color w) s in
        (Some (send [] err), s)
    | _, _ => (None, s)
    end
  else if decide (Why update = "dead") then
    match Current update with
    | None => (None, s)
    | Some c =>
        let '(err, s) := DeleteRepoLabel org repo (Name c) s in
        (Some (send [] err), s)
    end
  else if decide (Why update = "migrate") then
    match Current update, Wanted update with
    | Some c, Some w =>
        let '((issues, err), s) :=
          FindIssues (migrate_query org repo (Name c) (Name w)) "" false
                     s in
        let errs := send [] err in
        let '(errs, s) :=
          if decide (length issues = 0%nat) then
            let '(err, s) := DeleteRepoLabel org repo (Name c) s in
            (send errs err, s)
          else (errs, s) in
        let '(errs, s) := foldl (migrate_issue org repo c w) (errs, s)
                                issues in
        (Some errs, s)
    | _, _ => (None, s)
    end
  else (Some ["unknown label operation: " +:+ Why update], s).
End DoUpdates.

(** *** A client that records its calls *)

Inductive Call : Type :=
| CallAddRepoLabel (org repo name description color : string)
| CallUpdateRepoLabel (org repo currentName newName description color : string)
| CallDeleteRepoLabel (org repo label : string)
| CallAddLabel (org repo : string) (number : Z) (label : string)
| CallRemoveLabel (org repo : string) (number : Z) (label : string)
| CallFindIssues (query order : string) (ascending : bool).

(** A call and the error it returned. *)
Definition Event : Type := Call * option string.

(** Any client, with a log of the calls made to it (most recent last). *)
#[export] Instance recording {St : Type} (gc : client St)
    : client (St * list Event) := {|
  AddRepoLabel org repo name description color s :=
    let '(err, s') := AddRepoLabel org repo name description color s.1 in
    (err, (s', s.2 ++ [(CallAddRepoLabel org repo name description color, err)]));
  UpdateRepoLabel org repo currentName newName description color s :=
    let '(err, s') :=
      UpdateRepoLabel org repo currentName newName description color s.1 in
    (err, (s', s.2 ++ [(CallUpdateRepoLabel org repo currentName newName
                                            description color, err)]));
  DeleteRepoLabel org repo label s :=
    let '(err, s') := DeleteRepoLabel org repo label s.1 in
    (err, (s', s.2 ++ [(CallDeleteRepoLabel org repo label, err)]));
  AddLabel org repo number label s :=
    let '(err, s') := AddLabel org repo number label s.1 in
    (err, (s', s.2 ++ [(CallAddLabel org repo number label, err)]));
  RemoveLabel org repo number label s :=
    let '(err, s') := RemoveLabel org repo number label s.1 in
    (err, (s', s.2 ++ [(CallRemoveLabel org repo number label, err)]));
  FindIssues query order ascending s :=
    let '((issues, err), s') := FindIssues query order ascending s.1 in
    ((issues, err), (s', s.2 ++ [(CallFindIssues query order ascending, err)]))
|}.

(** The calls that [runUpdate] makes to [gc] from state [s]. *)
Definition calls_of {St : Type} (gc : client St) (org : string)
    (item : repoUpdate) (s : St) : list Event :=
  (runUpdate (gc := recording gc) org item (s, [])).2.2.

(** The errors that [runUpdate] sends to [errChan]. *)
Definition errors_of {St : Type} (gc : client St) (org : string)
    (item : repoUpdate) (s : St) : option (list string) :=
  (runUpdate (gc := gc) org item s).1.

(** ** Vocabulary of the properties *)

(** All labels of a tree, at every depth, in the order the loops of
    [validate] and [ClassifyLabels] visit them. *)
Fixpoint flattenLabel (l : Label) : list Label :=
  l :: (fix flatten (labels : list Label) : list Label :=
          match labels with
          | [] => []
          | l' :: rest => flattenLabel l' ++ flatten rest
          end) (Previously l).

Fixpoint flatten (labels : list Label) : list Label :=
  match labels with
  | [] => []
  | l :: rest => flattenLabel l ++ flatten rest
  end.

(** The lowercase names of all labels of a tree. *)
Definition names (labels : list Label) : list string :=
  (λ l, ToLower (Name l)) <$> flatten labels.

(** The same labels, each with the [parent] argument ClassifyLabels has
    when it visits the label. *)
Fixpoint nodesLabel (l : Label) (parent : option Label)
    : list (Label * option Label) :=
  (l, parent) ::
  (fix nodes (labels : list Label) : list (Label * option Label) :=
     match labels with
     | [] => []
     | l' :: rest => nodesLabel l' (first_of parent l) ++ nodes rest
     end) (Previously l).

Fixpoint nodes (labels : list Label) (parent : option Label)
    : list (Label * option Label) :=
  match labels with
  | [] => []
  | l :: rest => nodesLabel l parent ++ nodes rest parent
  end.


(** [expired now l]: the label has a [DeleteAfter] and [now] is after it. *)
Definition expired (now : Z) (l : Label) : Prop :=
  ∃ t, DeleteAfter l = Some t ∧ t < now.


(** What [validate] returns ([r]) on a tree whose lowercase names are
    [names], from the map [seen]. *)
Definition validate_sound_at (names : list string) (seen : gmap string string)
    (r : gmap string string * option string) : Prop :=
  (r.2 = None →
   NoDup names ∧ (∀ k, k ∈ names → seen !! k = None) ∧
   dom r.1 = dom seen ∪ list_to_set names) ∧
  (NoDup names → (∀ k, k ∈ names → seen !! k = None) → r.2 = None).

(** The step of ClassifyLabels at one node. *)
Definition classify_node (now : Z) (c : Classes)
    (n : Label * option Label) : Classes :=
  classify n.1 now n.2 c.


(** Two triples of maps that agree at the key [k]. *)
Definition same_at (k : string) (c c' : Classes) : Prop :=
  required c !! k = required c' !! k ∧
  archaic c !! k = archaic c' !! k ∧
  dead c !! k = dead c' !! k.

(** The empty maps that SyncLabels passes to ClassifyLabels. *)
Definition no_classes : Classes := mkClasses ∅ ∅ ∅.

(** A small tree: [kind/bug] was [bug] and, before that, [defect];
    [old] and [later] are top-level labels that retire at 5 and at 50. *)
Definition ex_defect : Label :=
  mkLabel "Defect" "ff0000" "" "issues" "" "" [] None None.
Definition ex_bug : Label :=
  mkLabel "bug" "ee0701" "" "issues" "" "" [ex_defect] None None.
Definition ex_kind_bug : Label :=
  mkLabel "kind/bug" "e11d21" "a bug" "both" "" "" [ex_bug] None None.
Definition ex_old : Label :=
  mkLabel "old" "cccccc" "" "both" "" "" [] (Some 5) None.
Definition ex_later : Label :=
  mkLabel "later" "cccccc" "" "both" "" "" [] (Some 50) None.
Definition ex_tree : list Label := [ex_kind_bug; ex_old; ex_later].

(** *** SyncLabels, one repository at a time *)

(** The three loops that SyncLabels runs for a repository with valid
    labels, from the actions [acts0] gathered so far. *)
Definition repo_loops (o : RangeOrder) (c : Classes) (repo : string)
    (labels : list Label) (acts0 : list Update) : RepoState :=
  foldl (required_step repo)
    (foldl (migrate_step repo)
       (foldl (kill_step (dead c) repo) (mkRepoState ∅ acts0 []) labels)
       (range_archaic o repo (archaic c)))
    (range_required o repo (required c)).

(** The actions that one iteration of "Process all repos" appends. *)
Definition repoActions (o : RangeOrder) (c : Classes) (repo : string)
    (repoLabels : list github.Label) : list Update :=
  match validate (convert repoLabels) "" ∅ with
  | (_, Some _) => []
  | (_, None) =>
      let s := repo_loops o c repo (convert repoLabels) [] in
      actions s ++ moveActions s
  end.

(** The validation errors that one iteration appends. *)
Definition repoErrors (repo : string) (repoLabels : list github.Label)
    : list string :=
  match validate (convert repoLabels) "" ∅ with
  | (_, Some err) => ["invalid labels in " +:+ repo +:+ ": " +:+ err]
  | (_, None) => []
  end.

(** [actions] with [acts0] put in front. *)
Definition prepend (acts0 : list Update) (st : RepoState) : RepoState :=
  mkRepoState (current st) (acts0 ++ actions st) (moveActions st).

(** An entry of RepoUpdates: a repository without actions has none. *)
Definition entry (acts : list Update) : option (list Update) :=
  match acts with
  | [] => None
  | _ => Some acts
  end.

(** Every action of the state is for the repository [r]. *)
Definition repo_is (r : string) (st : RepoState) : Prop :=
  Forall (λ a, repo a = r) (actions st) ∧
  Forall (λ a, repo a = r) (moveActions st).


(** No "migrate" among [actions], only "migrate" among [moveActions]. *)
Definition migrate_apart (st : RepoState) : Prop :=
  Forall (λ a, Why a ≠ "migrate") (actions st) ∧
  Forall (λ a, Why a = "migrate") (moveActions st).

(** Another possible order: repositories and archaic labels are visited
    in the reverse order of [list_order]. *)
Definition reverse_order : RangeOrder :=
  mkRangeOrder (λ m, reverse (map_to_list m))
               (λ _ m, reverse (map_to_list m))
               (λ _, map_to_list).

(** A configuration with one label that retires at 5, and a repository
    that has the label. *)
Definition ex_retiring : Configuration := mkConfiguration [ex_old].
Definition ex_has_old : gmap string (list github.Label) :=
  {[ "r" := [github.mkLabel "old" "" "cccccc"] ]}.

(** [sig/a] and [sig/b] were both renamed to [sig/new]; the repository
    has the two old names and not the new one. *)
Definition ex_merged : Configuration :=
  mkConfiguration
    [mkLabel "sig/new" "d2b48c" "" "both" "" ""
       [mkLabel "sig/a" "d2b48c" "" "both" "" "" [] None None;
        mkLabel "sig/b" "d2b48c" "" "both" "" "" [] None None]
       None None].
Definition ex_has_both : gmap string (list github.Label) :=
  {[ "r" := [github.mkLabel "sig/a" "" "d2b48c";
             github.mkLabel "sig/b" "" "d2b48c"] ]}.

(** A repository with a retired label, an old name next to its new name,
    and the wrong color on the new name. *)
Definition ex_snapshot : gmap string (list github.Label) :=
  {[ "r" := [github.mkLabel "old" "" "cccccc";
             github.mkLabel "bug" "" "ee0701";
             github.mkLabel "kind/bug" "a bug" "ffffff"] ]}.
Definition ex_snapshot_actions : list Update :=
  [kill "r" (plainLabel "old" "" "cccccc");
   change "r" ex_kind_bug;
   move "r" (plainLabel "bug" "" "ee0701") (plainLabel "kind/bug" "" "e11d21")].

(** An order that differs from [list_order] in the order of the
    repositories only. *)
Definition reverse_repos_order : RangeOrder :=
  mkRangeOrder (λ m, reverse (map_to_list m))
               (λ _, map_to_list) (λ _, map_to_list).

(** Two repositories that both lack the label [kind/bug]. *)
Definition ex_two_repos : gmap string (list github.Label) :=
  {[ "r" := [github.mkLabel "old" "" "cccccc"]; "q" := [] ]}.


(** A configuration with the label [bug], a repository without labels and
    a repository that has the label. *)
Definition ex_one_label : Configuration :=
  mkConfiguration [mkLabel "bug" "d73a4a" "" "both" "" "" [] None None].
Definition ex_no_labels : gmap string (list github.Label) :=
  {[ "r" := [] ]}.

(** One repository lists the label [bug] twice, up to case; the other
    has no labels. *)
Definition ex_one_invalid : gmap string (list github.Label) :=
  {[ "r" := [github.mkLabel "bug" "" "d73a4a";
             github.mkLabel "Bug" "" "d73a4a"];
     "q" := [] ]}.




(** The label [needs-sig] was renamed to [triage/needs-information]. *)
Definition ex_needs_sig : Label :=
  mkLabel "needs-sig" "ededed" "" "both" "" "" [] None None.
Definition ex_triage : Label :=
  mkLabel "triage/needs-information" "d455d0" "" "both" "" ""
          [ex_needs_sig] None None.
Definition ex_renamed : Configuration := mkConfiguration [ex_triage].
Definition ex_gh_needs_sig : github.Label :=
  github.mkLabel "needs-sig" "" "ededed".
Definition ex_gh_triage : github.Label :=
  github.mkLabel "triage/needs-information" "" "d455d0".
Definition ex_only_old : gmap string (list github.Label) :=
  {[ "r" := [ex_gh_needs_sig] ]}.
Definition ex_old_and_new : gmap string (list github.Label) :=
  {[ "r" := [ex_gh_needs_sig; ex_gh_triage] ]}.

(** *** The calls of a "migrate" update *)

(** The calls for one issue [i]: the label [wanted] is added and, when
    that call returned no error, the label [cur] is removed. *)
Inductive migrate_chunk (org repo : string) (cur wanted : Label)
    (i : github.Issue) : list Event → Prop :=
| chunk_add_failed e :
    migrate_chunk org repo cur wanted i
      [(CallAddLabel org repo (github.Number i) (Name wanted), Some e)]
| chunk_moved err :
    migrate_chunk org repo cur wanted i
      [(CallAddLabel org repo (github.Number i) (Name wanted), None);
       (CallRemoveLabel org repo (github.Number i) (Name cur), err)].

(** A client without state: [FindIssues] returns [issues] and [find_err],
    [AddLabel] fails on the issues whose number is in [bad], every other
    call succeeds. *)
Definition scripted (issues : list github.Issue) (find_err : option string)
    (bad : list Z) : client unit := {|
  AddRepoLabel _ _ _ _ _ s := (None, s);
  UpdateRepoLabel _ _ _ _ _ _ s := (None, s);
  DeleteRepoLabel _ _ _ s := (None, s);
  AddLabel _ _ number _ s :=
    (if decide (number ∈ bad) then Some "cannot add label" else None, s);
  RemoveLabel _ _ _ _ s := (None, s);
  FindIssues _ _ _ s := ((issues, find_err), s)
|}.

(** The "migrate" update of [needs-sig] to [triage/needs-information]. *)
Definition ex_migrate : repoUpdate :=
  mkRepoUpdate "r"
    (move "r" (plainLabel "needs-sig" "" "ededed")
          (plainLabel "triage/needs-information" "" "d455d0")).

(** ** The rest of main.go *)

(** [const PRTarget], [IssueTarget], [BothTarget] and [LabelTargets]. *)
Definition PRTarget : string := "prs".
Definition IssueTarget : string := "issues".
Definition BothTarget : string := "both".
Definition LabelTargets : list string := [PRTarget; IssueTarget; BothTarget].

(** [func (c Configuration) LabelsByTarget(target LabelTarget)
    (labels []Label)]. *)
Definition LabelsByTarget (c : Configuration) (target : string)
    : list Label :=
  foldl (λ labels label,
           if decide (target = Target label) then labels ++ [label]
           else labels)
        [] (Labels c).

(** [strings.Split(s, sep)] for a separator [sep] of one byte: the pieces
    of [s] between the occurrences of [sep]; there is always one piece
    more than there are occurrences. *)
Fixpoint Split (s : string) (sep : ascii) : list string :=
  match s with
  | EmptyString => [EmptyString]
  | String a r =>
      if decide (a = sep) then EmptyString :: Split r sep
      else match Split r sep with
           | h :: t => String a h :: t
           | [] => [String a EmptyString]
           end
  end.

Definition colon : ascii := ascii_of_nat 58.

(** [func GetOrg(org string) (string, bool)]. *)
Definition GetOrg (org : string) : string * bool :=
  match Split org colon with
  | [d0; d1] => if decide (d0 = "user") then (d1, true) else (org, false)
  | _ => (org, false)
  end.

(** [mentions s c]: the byte [c] occurs in [s]. *)
Fixpoint mentions (s : string) (c : ascii) : bool :=
  match s with
  | EmptyString => false
  | String a r => if decide (a = c) then true else mentions r c
  end.

(** [github.Repo], of which label_sync reads the name. *)
Record Repo : Type := mkRepo {
  Repo_Name : string
}.

(** The two methods of [type client interface] that list repositories
    and labels. *)
Class lister (St : Type) : Type := mkLister {
  GetRepos : string → bool → St → (list Repo * option string) * St;
  GetRepoLabels :
    string → string → St → (list github.Label * option string) * St
}.

(** [func LoadRepos(org string, gc client, filt filter) (RepoList, error)].
    The [nil] list returned with an error is the empty list. *)
Definition LoadRepos {St : Type} `{gc : lister St} (org : string)
    (filt : string → string → bool) (s : St)
    : (list Repo * option string) * St :=
  let '(org, isUser) := GetOrg org in
  let '((repos, err), s) := GetRepos org isUser s in
  match err with
  | Some e => (([], Some e), s)
  | None =>
      (foldl (λ rl r, if filt org (Repo_Name r) then rl ++ [r] else rl)
             [] repos,
       None, s)
  end.

(** Where an entry of the maps comes from. *)
Definition origin_ok (now : Z) (ns : list (Label * option Label))
    (c0 c : Classes) : Prop :=
  (∀ k v, required c !! k = Some v →
     required c0 !! k = Some v ∨
     ((v, None) ∈ ns ∧ k = ToLower (Name v) ∧ DeleteAfter v = None)) ∧
  (∀ k v, dead c !! k = Some v →
     dead c0 !! k = Some v ∨
     (∃ p, (v, p) ∈ ns ∧ k = ToLower (Name v) ∧ expired now v)) ∧
  (∀ k v, archaic c !! k = Some v →
     archaic c0 !! k = Some v ∨
     (∃ l top, (l, Some top) ∈ ns ∧ v = set_parent l (Some top) ∧
               k = ToLower (Name l) ∧ ¬ expired now l)).

(** [P] holds of every action of the state. *)
Definition actions_all (P : Update → Prop) (st : RepoState) : Prop :=
  Forall P (actions st) ∧ Forall P (moveActions st).

(** The fields that DoUpdates reads for each kind of update are set. *)
Definition well_formed (a : Update) : Prop :=
  (Why a = "missing" ∧ is_Some (Wanted a) ∧ Current a = None) ∨
  (Why a = "dead" ∧ Wanted a = None ∧ is_Some (Current a)) ∨
  ((Why a = "rename" ∨ Why a = "change" ∨ Why a = "migrate") ∧
   is_Some (Wanted a) ∧ is_Some (Current a)).






(** Names the result of the loop that the goal takes apart, with the
    equation [EF] that defines it. *)
Ltac name_loop_result EF :=
  lazymatch goal with
  | |- context [match ?t with _ => _ end] =>
      destruct t as [? [? ?]] eqn:EF
  end.

(** A lister without state that answers [GetRepos] with [repos] and
    [err]. *)
Definition listing (repos : list Repo) (err : option string) : lister unit :=
  {| GetRepos _ _ s := ((repos, err), s);
     GetRepoLabels _ _ s := (([], None), s) |}.

(** * Properties *)

(** ** The loops as the source writes them *)

Lemma validateLabel_eq l parent seen :
  validateLabel l parent seen =
  let name := ToLower (Name l) in
  let path := parent +:+ "." +:+ name in
  match seen !! name with
  | Some other =>
      (seen, Some ("duplicate label " +:+ name +:+ " at " +:+ path
                   +:+ " and " +:+ other))
  | None => validate (Previously l) path (<[name := path]> seen)
  end.
Proof.
  destruct l as [n c d t pp ab prev da par]; simpl.
  destruct (seen !! ToLower n); [done|].
  generalize (<[ToLower n := parent +:+ "." +:+ ToLower n]> seen).
  induction prev as [|l' prev IH]; intros s; simpl; [done|].
  destruct (validateLabel l' _ s) as [s' [e|]]; [done|]. apply IH.
Qed.

Lemma classifyLabel_eq l c now parent :
  classifyLabel l c now parent =
  ClassifyLabels (Previously l) (classify l now parent c) now
                 (first_of parent l).
Proof.
  destruct l as [n co d t pp ab prev da par].
  set (l := mkLabel n co d t pp ab prev da par).
  change (classifyLabel l c now parent) with
    ((fix go (labels : list Label) (c : Classes) : Classes :=
        match labels with
        | [] => c
        | l' :: rest => go rest (classifyLabel l' c now (first_of parent l))
        end) prev (classify l now parent c)).
  change (Previously l) with prev.
  generalize (classify l now parent c), (first_of parent l).
  clear l. induction prev as [|l' prev IH]; intros s f; simpl; [done|].
  apply IH.
Qed.

(** ** Loops as folds *)

Lemma foldl_snoc {A} (l0 l : list A) :
  foldl (λ acc a, acc ++ [a]) l0 l = l0 ++ l.
Proof.
  revert l0. induction l as [|x l IH]; intros l0; simpl.
  - by rewrite app_nil_r.
  - by rewrite IH, <- app_assoc.
Qed.

Lemma foldl_invariant {A S} (P : S → Prop) (f : S → A → S) :
  (∀ st x, P st → P (f st x)) → ∀ xs st, P st → P (foldl f st xs).
Proof.
  intros Hf xs. induction xs as [|x xs IH]; intros st Hst; simpl; auto.
Qed.

Lemma foldl_invariant_in {A S} (P : S → Prop) (f : S → A → S) (xs : list A) :
  (∀ st x, x ∈ xs → P st → P (f st x)) → ∀ st, P st → P (foldl f st xs).
Proof.
  induction xs as [|x xs IH]; intros Hf st Hst; simpl; [done|].
  apply IH.
  - intros st' y Hy. apply Hf. by right.
  - apply Hf; [by left|done].
Qed.

Lemma foldl_fixed {A S} (f : S → A → S) (s : S) (xs : list A) :
  (∀ x, x ∈ xs → f s x = s) → foldl f s xs = s.
Proof.
  induction xs as [|x xs IH]; intros H; simpl; [done|].
  rewrite (H x) by (by left). apply IH. intros y Hy. apply H. by right.
Qed.

(** ** Induction on label trees *)

Lemma Label_tree_ind (P : Label → Prop) :
  (∀ l, Forall P (Previously l) → P l) → ∀ l, P l.
Proof.
  intros H. fix IH 1. intros l. apply H.
  destruct l as [n c d t pp ab prev da par]. simpl.
  revert prev. fix IHprev 1. intros [|x xs]; constructor.
  - apply IH.
  - apply IHprev.
Qed.

Lemma Label_forest_ind (P : Label → Prop) :
  (∀ l, Forall P (Previously l) → P l) → ∀ labels, Forall P labels.
Proof.
  intros H labels. apply Forall_forall. intros l _.
  by apply Label_tree_ind.
Qed.

Lemma flattenLabel_eq l : flattenLabel l = l :: flatten (Previously l).
Proof.
  by destruct l.
Qed.

Lemma nodesLabel_eq l parent :
  nodesLabel l parent =
  (l, parent) :: nodes (Previously l) (first_of parent l).
Proof.
  destruct l as [n c d t pp ab prev da par].
  set (l := mkLabel n c d t pp ab prev da par).
  change (nodesLabel l parent) with
    ((l, parent) ::
     (fix go (labels : list Label) : list (Label * option Label) :=
        match labels with
        | [] => []
        | l' :: rest => nodesLabel l' (first_of parent l) ++ go rest
        end) prev).
  change (Previously l) with prev. f_equal.
  generalize (first_of parent l). clear l.
  induction prev as [|l' prev IH]; intros f; simpl; [done|]. by rewrite IH.
Qed.

Lemma names_cons l rest :
  names (l :: rest) =
  ToLower (Name l) :: names (Previously l) ++ names rest.
Proof.
  unfold names. simpl. rewrite flattenLabel_eq. simpl.
  by rewrite fmap_app.
Qed.

Lemma nodesLabel_fst l parent :
  (nodesLabel l parent).*1 = flattenLabel l.
Proof.
  revert parent. induction l as [l Hprev] using Label_tree_ind.
  intros parent. rewrite nodesLabel_eq, flattenLabel_eq. simpl.
  f_equal. generalize (first_of parent l).
  induction Hprev as [|x xs Hx _ IH]; intros f; simpl; [done|].
  by rewrite fmap_app, Hx, IH.
Qed.

Lemma nodes_fst labels parent : (nodes labels parent).*1 = flatten labels.
Proof.
  induction labels as [|l rest IH]; simpl; [done|].
  by rewrite fmap_app, nodesLabel_fst, IH.
Qed.

(** ** validate accepts exactly the trees without duplicate names *)

Lemma validate_forest labels :
  Forall (λ l, ∀ parent seen,
            validate_sound_at (names [l]) seen (validateLabel l parent seen))
         labels →
  ∀ parent seen,
    validate_sound_at (names labels) seen (validate labels parent seen).
Proof.
  induction 1 as [|l rest Hl _ IH]; intros parent seen.
  - split; simpl; [|done]. intros _. split; [constructor|].
    split; [by intros k ?%elem_of_nil|]. set_solver.
  - simpl. specialize (Hl parent seen).
    destruct (validateLabel l parent seen) as [s' [e|]] eqn:E.
    + destruct Hl as [_ Hl]. split; simpl; [done|].
      intros Hnd Hfresh. exfalso.
      assert (names (l :: rest) = names [l] ++ names rest) as Hsplit.
      { unfold names. simpl. by rewrite app_nil_r, fmap_app. }
      rewrite Hsplit in Hnd, Hfresh. apply NoDup_app in Hnd as (Hnd & _ & _).
      enough (Some e = None) by done.
      apply Hl; [done|]. intros k Hk. apply Hfresh, elem_of_app. by left.
    + destruct Hl as [Hl Hl']. destruct (Hl eq_refl) as (Hnd1 & Hf1 & Hdom1).
      simpl in Hdom1. specialize (IH parent s').
      destruct IH as [IH IH'].
      assert (names (l :: rest) = names [l] ++ names rest) as Hsplit.
      { unfold names. simpl. by rewrite app_nil_r, fmap_app. }
      rewrite Hsplit. split.
      * intros Hr. destruct (IH Hr) as (Hnd2 & Hf2 & Hdom2).
        split; [|split].
        -- apply NoDup_app. split; [done|]. split; [|done].
           intros k Hk1 Hk2. apply Hf2 in Hk2.
           apply not_elem_of_dom in Hk2. apply Hk2. rewrite Hdom1.
           apply elem_of_union. right. by apply elem_of_list_to_set.
        -- intros k [Hk|Hk]%elem_of_app; [by apply Hf1|].
           apply Hf2 in Hk. apply not_elem_of_dom in Hk.
           apply not_elem_of_dom. rewrite Hdom1 in Hk. set_solver.
        -- rewrite Hdom2, Hdom1, list_to_set_app_L. set_solver.
      * intros Hnd Hfresh. apply NoDup_app in Hnd as (_ & Hdisj & Hnd2).
        apply IH'; [done|]. intros k Hk. apply not_elem_of_dom.
        rewrite Hdom1. intros [Hin|Hin%elem_of_list_to_set]%elem_of_union.
        -- apply elem_of_dom in Hin as [v Hv].
           rewrite Hfresh in Hv; [done|]. apply elem_of_app. by right.
        -- by apply (Hdisj k).
Qed.

Lemma validateLabel_sound l parent seen :
  validate_sound_at (names [l]) seen (validateLabel l parent seen).
Proof.
  revert parent seen. induction l as [l Hprev] using Label_tree_ind.
  intros parent seen. rewrite validateLabel_eq. cbv zeta.
  assert (names [l] = ToLower (Name l) :: names (Previously l)) as ->.
  { rewrite names_cons. unfold names at 2. simpl. by rewrite app_nil_r. }
  set (name := ToLower (Name l)). set (path := parent +:+ "." +:+ name).
  destruct (seen !! name) as [other|] eqn:Hseen.
  - split; simpl; [done|]. intros _ Hfresh.
    rewrite Hfresh in Hseen; [done|]. by left.
  - pose proof (validate_forest _ Hprev path (<[name:=path]> seen))
      as [IH IH'].
    split.
    + intros Hr. destruct (IH Hr) as (Hnd & Hf & Hdom). split; [|split].
      * constructor; [|done]. intros Hin. apply Hf in Hin.
        by rewrite lookup_insert_eq in Hin.
      * intros k [->|Hk]%elem_of_cons; [done|].
        specialize (Hf k Hk). destruct (decide (name = k)) as [->|Hne].
        -- by rewrite lookup_insert_eq in Hf.
        -- by rewrite lookup_insert_ne in Hf.
      * rewrite Hdom, dom_insert_L. simpl. set_solver.
    + intros [Hnotin Hnd]%NoDup_cons Hfresh. apply IH'; [done|].
      intros k Hk. rewrite lookup_insert_ne; [|by intros ->].
      apply Hfresh. by right.
Qed.

Lemma validate_sound labels parent seen :
  validate_sound_at (names labels) seen (validate labels parent seen).
Proof.
  apply validate_forest, Forall_forall. intros l _ p s.
  apply validateLabel_sound.
Qed.

(** [validate] reports no error exactly when no two labels of the tree
    have the same lowercase name. *)
Lemma validate_None_iff labels parent :
  (validate labels parent ∅).2 = None ↔ NoDup (names labels).
Proof.
  destruct (validate_sound labels parent ∅) as [H1 H2]. split.
  - intros H. by destruct (H1 H).
  - intros H. apply H2; [done|]. intros k _. apply lookup_empty.
Qed.


(** ** ClassifyLabels as one pass over the nodes *)

Lemma ClassifyLabels_forest now labels :
  Forall (λ l, ∀ c parent,
            classifyLabel l c now parent =
            foldl (classify_node now) c (nodesLabel l parent)) labels →
  ∀ c parent,
    ClassifyLabels labels c now parent =
    foldl (classify_node now) c (nodes labels parent).
Proof.
  induction 1 as [|l rest Hl _ IH]; intros c parent; simpl; [done|].
  by rewrite foldl_app, <- Hl, IH.
Qed.

Lemma ClassifyLabels_nodes now labels c parent :
  ClassifyLabels labels c now parent =
  foldl (classify_node now) c (nodes labels parent).
Proof.
  revert c parent. apply ClassifyLabels_forest, Forall_forall.
  intros l _. induction l as [l Hprev] using Label_tree_ind.
  intros c parent. rewrite classifyLabel_eq, nodesLabel_eq. simpl.
  by apply ClassifyLabels_forest.
Qed.

(** ** Where ClassifyLabels puts a node *)

Lemma same_at_refl k c : same_at k c c.
Proof. by repeat split. Qed.

Lemma same_at_trans k c1 c2 c3 :
  same_at k c1 c2 → same_at k c2 c3 → same_at k c1 c3.
Proof. intros (?&?&?) (?&?&?). repeat split; congruence. Qed.

Lemma classify_other k l now p c :
  ToLower (Name l) ≠ k → same_at k (classify l now p c) c.
Proof.
  intros Hne. unfold classify, same_at.
  destruct p as [p|], (DeleteAfter l) as [t|]; simpl;
    repeat case_match; simpl; rewrite ?lookup_insert_ne; done.
Qed.

Lemma foldl_classify_other k now ns c :
  Forall (λ n : Label * option Label, ToLower (Name n.1) ≠ k) ns →
  same_at k (foldl (classify_node now) c ns) c.
Proof.
  intros H. revert c.
  induction H as [|n ns Hn _ IH]; intros c; simpl;
    [apply same_at_refl|].
  eapply same_at_trans; [apply IH|]. by apply classify_other.
Qed.

(** With distinct names, the maps hold at a node's name what the step at
    that node put there. *)
Lemma foldl_classify_at now ns c l p :
  NoDup ((λ n : Label * option Label, ToLower (Name n.1)) <$> ns) →
  (l, p) ∈ ns →
  ∃ c1, same_at (ToLower (Name l)) c1 c ∧
        same_at (ToLower (Name l)) (foldl (classify_node now) c ns)
                (classify l now p c1).
Proof.
  intros Hnd Hin. apply list_elem_of_split in Hin as (pre & post & ->).
  rewrite fmap_app, fmap_cons in Hnd. simpl in Hnd.
  apply NoDup_app in Hnd as (_ & Hdisj & [Hpost _]%NoDup_cons).
  exists (foldl (classify_node now) c pre). split.
  - apply foldl_classify_other, Forall_forall. intros n Hn Heq.
    apply (Hdisj (ToLower (Name n.1))).
    + apply list_elem_of_fmap. by exists n.
    + rewrite Heq. by left.
  - rewrite foldl_app. simpl.
    apply foldl_classify_other, Forall_forall. intros n Hn Heq.
    apply Hpost. rewrite <- Heq. apply list_elem_of_fmap. by exists n.
Qed.

Lemma nodes_names labels parent :
  (λ n : Label * option Label, ToLower (Name n.1)) <$> nodes labels parent
  = names labels.
Proof.
  unfold names. rewrite <- (nodes_fst labels parent), <- list_fmap_compose.
  done.
Qed.

Lemma nodes_top labels parent l :
  l ∈ labels → (l, parent) ∈ nodes labels parent.
Proof.
  induction labels as [|x xs IH]; [by intros ?%elem_of_nil|].
  intros [->|Hin]%elem_of_cons; simpl; apply elem_of_app.
  - left. rewrite nodesLabel_eq. by left.
  - right. by apply IH.
Qed.





(** What ClassifyLabels leaves at the name of a node that it visits with
    [parent = p], in a tree without duplicate names. *)
Lemma ClassifyLabels_at labels now c l p :
  (validate labels "" ∅).2 = None →
  (l, p) ∈ nodes labels None →
  ∃ c1, same_at (ToLower (Name l)) c1 c ∧
        same_at (ToLower (Name l)) (ClassifyLabels labels c now None)
                (classify l now p c1).
Proof.
  intros Hv%validate_None_iff Hin. rewrite ClassifyLabels_nodes.
  apply foldl_classify_at; [|done]. by rewrite nodes_names.
Qed.






(** The tree [ex_tree] at time 10: [kind/bug] is required, [old] is dead,
    [bug] and [defect] are archaic and both point to [kind/bug], and
    [later] is in no map. *)
Example ClassifyLabels_ex_tree :
  let c := ClassifyLabels ex_tree no_classes 10 None in
  map_to_list (required c) = [("kind/bug", ex_kind_bug)] ∧
  map_to_list (dead c) = [("old", ex_old)] ∧
  archaic c !! "bug" = Some (set_parent ex_bug (Some ex_kind_bug)) ∧
  archaic c !! "defect" = Some (set_parent ex_defect (Some ex_kind_bug)) ∧
  size (archaic c) = 2%nat.
Proof. vm_compute. repeat split; reflexivity. Qed.

(** C9. For a top-level label whose [DeleteAfter] is set and not before
    [now], the [switch] of ClassifyLabels takes no case, and in a tree
    without duplicate names none of the three maps has the name of the
    label. *)
Theorem ClassifyLabels_pending_nowhere (labels : list Label) (now t : Z)
    (l : Label) :
  l ∈ labels → DeleteAfter l = Some t → ¬ t < now →
  (∀ c', classify l now None c' = c') ∧
  ((validate labels "" ∅).2 = None →
   let c := ClassifyLabels labels no_classes now None in
   required c !! ToLower (Name l) = None ∧
   archaic c !! ToLower (Name l) = None ∧
   dead c !! ToLower (Name l) = None).
Proof.
  intros Hl Hda Hnow.
  assert (∀ c', classify l now None c' = c') as Hstep.
  { intros c'. unfold classify, After. rewrite Hda.
    by destruct (Z.ltb_spec t now). }
  split; [done|]. intros Hv c. subst c.
  destruct (ClassifyLabels_at labels now no_classes l None Hv)
    as (c1 & (H1 & H2 & H3) & (-> & -> & ->)).
  { by apply nodes_top. }
  by rewrite Hstep, H1, H2, H3.
Qed.

Lemma ClassifyLabels_pending_nowhere_witness :
  ex_later ∈ ex_tree ∧ DeleteAfter ex_later = Some 50 ∧ ¬ 50 < 10 ∧
  (validate ex_tree "" ∅).2 = None ∧
  (∀ c', classify ex_later 10 None c' = c') ∧
  let c := ClassifyLabels ex_tree no_classes 10 None in
  required c !! "later" = None ∧ archaic c !! "later" = None ∧
  dead c !! "later" = None.
Proof.
  assert (ex_later ∈ ex_tree) as Hin by (do 2 right; left).
  assert (¬ 50 < 10) as Hnow by lia.
  assert ((validate ex_tree "" ∅).2 = None) as Hv
    by (vm_compute; reflexivity).
  destruct (ClassifyLabels_pending_nowhere ex_tree 10 50 ex_later Hin
              eq_refl Hnow) as [Hstep Hmaps].
  split; [exact Hin|]. split; [reflexivity|]. split; [exact Hnow|].
  split; [exact Hv|]. split; [exact Hstep|]. exact (Hmaps Hv).
Defined.

(** ** SyncLabels, one repository at a time *)


Lemma kill_step_prepend d r a0 st l :
  kill_step d r (prepend a0 st) l = prepend a0 (kill_step d r st l).
Proof.
  unfold kill_step, prepend. simpl.
  destruct (d !! ToLower (Name l)); by rewrite ?app_assoc.
Qed.

Lemma migrate_step_prepend r a0 st e :
  migrate_step r (prepend a0 st) e = prepend a0 (migrate_step r st e).
Proof.
  destruct e as [name l]. unfold migrate_step, prepend. simpl.
  repeat case_match; simpl; by rewrite ?app_assoc.
Qed.

Lemma required_step_prepend r a0 st e :
  required_step r (prepend a0 st) e = prepend a0 (required_step r st e).
Proof.
  destruct e as [name l]. unfold required_step, prepend. simpl.
  repeat case_match; simpl; by rewrite ?app_assoc.
Qed.

Lemma foldl_prepend {A} (f : RepoState → A → RepoState) a0 :
  (∀ st x, f (prepend a0 st) x = prepend a0 (f st x)) →
  ∀ xs st, foldl f (prepend a0 st) xs = prepend a0 (foldl f st xs).
Proof.
  intros Hf xs. induction xs as [|x xs IH]; intros st; simpl; [done|].
  by rewrite Hf, IH.
Qed.

Lemma repo_loops_prepend o c r labels a0 :
  repo_loops o c r labels a0 = prepend a0 (repo_loops o c r labels []).
Proof.
  unfold repo_loops.
  replace (mkRepoState ∅ a0 []) with (prepend a0 (mkRepoState ∅ [] []))
    by (unfold prepend; simpl; by rewrite app_nil_r).
  rewrite (foldl_prepend _ a0 (kill_step_prepend (dead c) r a0)).
  rewrite (foldl_prepend _ a0 (migrate_step_prepend r a0)).
  by rewrite (foldl_prepend _ a0 (required_step_prepend r a0)).
Qed.

Lemma syncRepo_app o c errs acts r ls :
  syncRepo o c (errs, acts) (r, ls) =
  (errs ++ repoErrors r ls, acts ++ repoActions o c r ls).
Proof.
  unfold syncRepo, repoErrors, repoActions.
  destruct (validate (convert ls) "" ∅) as [s [e|]].
  - by rewrite app_nil_r.
  - rewrite app_nil_r, foldl_snoc. f_equal.
    fold (repo_loops o c r (convert ls) acts).
    rewrite repo_loops_prepend. simpl. by rewrite app_assoc.
Qed.

Lemma foldl_syncRepo o c rs errs acts :
  foldl (syncRepo o c) (errs, acts) rs =
  (errs ++ concat ((λ e, repoErrors e.1 e.2) <$> rs),
   acts ++ concat ((λ e, repoActions o c e.1 e.2) <$> rs)).
Proof.
  revert errs acts. induction rs as [|[r ls] rs IH]; intros errs acts.
  - simpl. by rewrite !app_nil_r.
  - rewrite !fmap_cons. cbn [foldl concat fst snd].
    by rewrite syncRepo_app, IH, <- !app_assoc.
Qed.

(** *** Every action carries the name of its repository *)

Lemma kill_step_repo d r st l : repo_is r st → repo_is r (kill_step d r st l).
Proof.
  intros [H1 H2]. unfold kill_step, repo_is. simpl.
  destruct (d !! ToLower (Name l)); split; try done.
  apply Forall_app. split; [done|]. by repeat constructor.
Qed.

Lemma migrate_step_repo r st e : repo_is r st → repo_is r (migrate_step r st e).
Proof.
  intros [H1 H2]. destruct e as [name l]. unfold migrate_step, repo_is.
  repeat case_match; simpl; split; try done;
    apply Forall_app; (split; [done|]); by repeat constructor.
Qed.

Lemma required_step_repo r st e :
  repo_is r st → repo_is r (required_step r st e).
Proof.
  intros [H1 H2]. destruct e as [name l]. unfold required_step, repo_is.
  repeat case_match; simpl; split; try done;
    apply Forall_app; (split; [done|]); by repeat constructor.
Qed.

Lemma repoActions_repo o c r ls :
  Forall (λ a, repo a = r) (repoActions o c r ls).
Proof.
  unfold repoActions. destruct (validate (convert ls) "" ∅) as [s [e|]];
    [constructor|].
  assert (repo_is r (repo_loops o c r (convert ls) [])) as [H1 H2].
  { unfold repo_loops.
    apply foldl_invariant; [apply required_step_repo|].
    apply foldl_invariant; [apply migrate_step_repo|].
    apply foldl_invariant; [apply kill_step_repo|].
    split; constructor. }
  apply Forall_app. by split.
Qed.

(** *** Grouping the actions by repository *)

Lemma foldl_group_block u r b :
  Forall (λ a, repo a = r) b →
  foldl group u b =
  match b with
  | [] => u
  | _ => <[r := default [] (u !! r) ++ b]> u
  end.
Proof.
  intros Hb. revert u. induction Hb as [|a b Ha Hb IH]; intros u; [done|].
  simpl. rewrite IH. unfold group. rewrite Ha.
  destruct b as [|a' b]; [done|].
  rewrite lookup_insert_eq. simpl.
  rewrite insert_insert_eq. by rewrite <- app_assoc.
Qed.

Lemma foldl_group_blocks (bs : list (string * list Update)) u r :
  NoDup bs.*1 →
  Forall (λ e, Forall (λ a, repo a = e.1) e.2) bs →
  foldl group u (concat bs.*2) !! r =
  match (list_to_map bs : gmap string (list Update)) !! r with
  | Some (a :: b) => Some (default [] (u !! r) ++ a :: b)
  | _ => u !! r
  end.
Proof.
  intros Hnd Hbs. revert u.
  induction Hbs as [|[r0 b0] bs Hb0 _ IH]; intros u; [done|].
  apply NoDup_cons in Hnd as [Hr0 Hnd]. simpl in *.
  rewrite foldl_app, (IH Hnd), (foldl_group_block u r0 b0 Hb0).
  destruct (decide (r0 = r)) as [->|Hne].
  - rewrite lookup_insert_eq.
    rewrite (not_elem_of_list_to_map_1 _ r Hr0).
    destruct b0; [done|]. by rewrite lookup_insert_eq.
  - rewrite lookup_insert_ne by done.
    destruct b0; [done|]. by rewrite lookup_insert_ne.
Qed.

(** The entry of RepoUpdates for [r], when the configuration is valid:
    the actions computed for [r] from its own labels. *)
Lemma SyncLabels_lookup o now config repos r :
  range_ok o → Configuration_validate config = None →
  (SyncLabels o now config repos).1 !! r =
  ls ← repos !! r;
  entry (repoActions o (ClassifyLabels (Labels config) no_classes now None)
                     r ls).
Proof.
  intros (Hperm & _ & _) Hv. unfold SyncLabels. rewrite Hv.
  fold no_classes.
  set (c := ClassifyLabels (Labels config) no_classes now None).
  rewrite foldl_syncRepo. simpl.
  set (bs := (λ e : string * list github.Label,
                (e.1, repoActions o c e.1 e.2)) <$> range_repos o repos).
  assert (bs.*1 = (range_repos o repos).*1) as Hfst.
  { unfold bs. rewrite <- list_fmap_compose. done. }
  assert (bs.*2 = (λ e : string * list github.Label,
                     repoActions o c e.1 e.2) <$> range_repos o repos)
    as Hsnd.
  { unfold bs. rewrite <- list_fmap_compose. done. }
  assert (NoDup bs.*1) as Hnd.
  { rewrite Hfst, (Hperm repos). apply NoDup_fst_map_to_list. }
  rewrite <- Hsnd, (foldl_group_blocks bs ∅ r Hnd).
  2:{ apply Forall_forall. intros e (e' & -> & _)%list_elem_of_fmap.
      apply repoActions_repo. }
  rewrite lookup_empty. simpl.
  destruct (repos !! r) as [ls|] eqn:Hr; simpl.
  - assert ((r, repoActions o c r ls) ∈ bs) as Hin.
    { apply list_elem_of_fmap. exists (r, ls). split; [done|].
      rewrite (Hperm repos). by apply elem_of_map_to_list. }
    rewrite (elem_of_list_to_map_1 _ _ _ Hnd Hin).
    by destruct (repoActions o c r ls).
  - rewrite (not_elem_of_list_to_map_1 bs r); [done|].
    rewrite Hfst, (Hperm repos). intros ([r' ls] & -> & Hin)%list_elem_of_fmap.
    apply elem_of_map_to_list in Hin. simpl in *. congruence.
Qed.


Lemma list_order_ok : range_ok list_order.
Proof. by repeat split. Qed.

Lemma reverse_order_ok : range_ok reverse_order.
Proof.
  repeat split; simpl; intros; by rewrite ?reverse_Permutation.
Qed.

(** ** An invalid configuration *)




(** The message for a label listed twice. *)
Example SyncLabels_duplicate_message :
  SyncLabels list_order 10 (mkConfiguration [ex_old; ex_old]) ex_has_old =
  (∅, Some "invalid config: invalid config: duplicate label old at .old and .old").
Proof. vm_compute. reflexivity. Qed.

(** ** Migrations come last *)

Lemma kill_step_apart d r st l :
  migrate_apart st → migrate_apart (kill_step d r st l).
Proof.
  intros [H1 H2]. unfold kill_step, migrate_apart. simpl.
  destruct (d !! ToLower (Name l)); split; try done.
  apply Forall_app. split; [done|]. by repeat constructor.
Qed.

Lemma migrate_step_apart r st e :
  migrate_apart st → migrate_apart (migrate_step r st e).
Proof.
  intros [H1 H2]. destruct e as [name l]. unfold migrate_step, migrate_apart.
  repeat case_match; simpl; split; try done;
    apply Forall_app; (split; [done|]); by repeat constructor.
Qed.

Lemma required_step_apart r st e :
  migrate_apart st → migrate_apart (required_step r st e).
Proof.
  intros [H1 H2]. destruct e as [name l]. unfold required_step, migrate_apart.
  repeat case_match; simpl; split; try done;
    apply Forall_app; (split; [done|]); by repeat constructor.
Qed.

Lemma repo_loops_apart o c r labels :
  migrate_apart (repo_loops o c r labels []).
Proof.
  unfold repo_loops.
  apply foldl_invariant; [apply required_step_apart|].
  apply foldl_invariant; [apply migrate_step_apart|].
  apply foldl_invariant; [apply kill_step_apart|].
  split; constructor.
Qed.

Lemma entry_Some acts acts' : entry acts = Some acts' → acts' = acts.
Proof. destruct acts; simpl; congruence. Qed.

(** C6. In the actions of a repository, no action other than "migrate"
    comes after a "migrate" action. *)
Theorem SyncLabels_migrate_last (o : RangeOrder) (now : Z)
    (config : Configuration) (repos : gmap string (list github.Label))
    (r : string) (acts : list Update) (i j : nat) (a b : Update) :
  range_ok o →
  (SyncLabels o now config repos).1 !! r = Some acts →
  acts !! i = Some a → acts !! j = Some b →
  Why a = "migrate" → Why b ≠ "migrate" →
  (j < i)%nat.
Proof.
  intros Ho Hacts Ha Hb Hwa Hwb.
  destruct (Configuration_validate config) as [e|] eqn:Hv.
  { unfold SyncLabels in Hacts. by rewrite Hv in Hacts. }
  rewrite (SyncLabels_lookup o now config repos r Ho Hv) in Hacts.
  destruct (repos !! r) as [ls|]; [|done]. simpl in Hacts.
  apply entry_Some in Hacts. subst acts. unfold repoActions in Ha, Hb.
  destruct (validate (convert ls) "" ∅) as [s [e|]]; [done|].
  cbv zeta in Ha, Hb.
  destruct (repo_loops_apart o (ClassifyLabels (Labels config) no_classes
                                  now None) r (convert ls)) as [H1 H2].
  set (st := repo_loops _ _ _ _ _) in *.
  destruct (decide (i < length (actions st))%nat) as [Hi|Hi].
  - rewrite lookup_app_l in Ha by done.
    apply list_elem_of_lookup_2 in Ha.
    by destruct (proj1 (Forall_forall _ _) H1 a Ha).
  - destruct (decide (j < length (actions st))%nat) as [Hj|Hj]; [lia|].
    rewrite lookup_app_r in Hb by lia.
    apply list_elem_of_lookup_2 in Hb.
    by destruct Hwb, (proj1 (Forall_forall _ _) H2 b Hb).
Qed.

Lemma SyncLabels_migrate_last_witness :
  range_ok list_order ∧
  (SyncLabels list_order 10 (mkConfiguration ex_tree) ex_snapshot).1 !! "r"
  = Some ex_snapshot_actions ∧
  ex_snapshot_actions !! 2%nat
  = Some (move "r" (plainLabel "bug" "" "ee0701")
               (plainLabel "kind/bug" "" "e11d21")) ∧
  ex_snapshot_actions !! 1%nat = Some (change "r" ex_kind_bug) ∧
  (1 < 2)%nat.
Proof.
  assert ((SyncLabels list_order 10 (mkConfiguration ex_tree)
             ex_snapshot).1 !! "r" = Some ex_snapshot_actions) as Hacts
    by (vm_compute; reflexivity).
  assert (Why (change "r" ex_kind_bug) ≠ "migrate") as Hw by discriminate.
  split; [exact list_order_ok|]. split; [exact Hacts|].
  split; [reflexivity|]. split; [reflexivity|].
  exact (SyncLabels_migrate_last list_order 10 (mkConfiguration ex_tree)
           ex_snapshot "r" ex_snapshot_actions 2 1 _ _
           list_order_ok Hacts eq_refl eq_refl eq_refl Hw).
Defined.

(** ** What the result of SyncLabels depends on *)

(** SyncLabels reads the clock: at time 0 the label [old] is in no map and
    nothing is done, at time 10 it is dead and is deleted. *)
Lemma SyncLabels_depends_on_now :
  (SyncLabels list_order 0 ex_retiring ex_has_old).1 = ∅ ∧
  (SyncLabels list_order 10 ex_retiring ex_has_old).1
  = {[ "r" := [kill "r" (plainLabel "old" "" "cccccc")] ]} ∧
  (SyncLabels list_order 0 ex_retiring ex_has_old).1
  ≠ (SyncLabels list_order 10 ex_retiring ex_has_old).1.
Proof.
  assert ((SyncLabels list_order 0 ex_retiring ex_has_old).1 = ∅) as H0
    by (vm_compute; reflexivity).
  assert ((SyncLabels list_order 10 ex_retiring ex_has_old).1
          = {[ "r" := [kill "r" (plainLabel "old" "" "cccccc")] ]}) as H10
    by (vm_compute; reflexivity).
  split; [done|]. split; [done|]. rewrite H0, H10.
  intros H. apply (f_equal (λ m, m !! "r")) in H.
  by rewrite lookup_empty, lookup_singleton_eq in H.
Qed.

(** The order of the loop over [archaic] matters as well: of two old
    names of one label, the one visited first is renamed and the other is
    migrated. *)
Example SyncLabels_depends_on_range_order :
  (SyncLabels list_order 0 ex_merged ex_has_both).1
  ≠ (SyncLabels reverse_order 0 ex_merged ex_has_both).1.
Proof.
  intros H.
  apply (f_equal (λ m, (λ a, (Why a, Name <$> Current a))
                         <$> default [] (m !! "r"))) in H.
  vm_compute in H. discriminate H.
Qed.

Lemma repoActions_ext o1 o2 c r ls :
  (∀ r m, range_archaic o1 r m = range_archaic o2 r m) →
  (∀ r m, range_required o1 r m = range_required o2 r m) →
  repoActions o1 c r ls = repoActions o2 c r ls.
Proof.
  intros Ha Hr. unfold repoActions, repo_loops. by rewrite Ha, Hr.
Qed.

(** C8, as the code has it. For a given time [now] and given orders of
    the loops over [archaic] and [required], the RepoUpdates that
    SyncLabels returns does not depend on the order in which the
    repositories are visited. *)
Theorem SyncLabels_repo_order_irrelevant (o1 o2 : RangeOrder) (now : Z)
    (config : Configuration) (repos : gmap string (list github.Label)) :
  range_ok o1 → range_ok o2 →
  (∀ r m, range_archaic o1 r m = range_archaic o2 r m) →
  (∀ r m, range_required o1 r m = range_required o2 r m) →
  (SyncLabels o1 now config repos).1 = (SyncLabels o2 now config repos).1.
Proof.
  intros Ho1 Ho2 Ha Hr.
  destruct (Configuration_validate config) as [e|] eqn:Hv.
  { unfold SyncLabels. by rewrite Hv. }
  apply map_eq. intros r.
  rewrite (SyncLabels_lookup o1 now config repos r Ho1 Hv).
  rewrite (SyncLabels_lookup o2 now config repos r Ho2 Hv).
  destruct (repos !! r) as [ls|]; simpl; [|done].
  by rewrite (repoActions_ext o1 o2 _ r ls Ha Hr).
Qed.

Lemma reverse_repos_order_ok : range_ok reverse_repos_order.
Proof.
  repeat split; simpl; intros; by rewrite ?reverse_Permutation.
Qed.

Lemma SyncLabels_repo_order_irrelevant_witness :
  range_ok list_order ∧ range_ok reverse_repos_order ∧
  (∀ r m, range_archaic list_order r m
          = range_archaic reverse_repos_order r m) ∧
  (∀ r m, range_required list_order r m
          = range_required reverse_repos_order r m) ∧
  (SyncLabels list_order 10 (mkConfiguration ex_tree) ex_two_repos).1
  = (SyncLabels reverse_repos_order 10 (mkConfiguration ex_tree)
                ex_two_repos).1.
Proof.
  split; [exact list_order_ok|]. split; [exact reverse_repos_order_ok|].
  split; [reflexivity|]. split; [reflexivity|].
  exact (SyncLabels_repo_order_irrelevant list_order reverse_repos_order 10
           (mkConfiguration ex_tree) ex_two_repos list_order_ok
           reverse_repos_order_ok (λ _ _, eq_refl) (λ _ _, eq_refl)).
Defined.

(** ** A repository that already has the required labels *)














(** ** A repository with duplicate labels *)











(** The run on [ex_one_invalid]: the repository [q] gets its label, the
    repository [r] is named in the error. *)
Example SyncLabels_ex_one_invalid :
  let res := SyncLabels list_order 10 ex_one_label ex_one_invalid in
  res.1 = {[ "q" := [create "q" (mkLabel "bug" "d73a4a" "" "both" "" "" []
                                         None None)] ]} ∧
  res.2 = Some "label validation failed: [invalid labels in r: duplicate label bug at .bug and .bug]".
Proof. vm_compute. split; reflexivity. Qed.

(** ** Archaic labels: rename or migrate *)



















(** The repository has only the old name: one "rename". *)
Example SyncLabels_renames :
  (SyncLabels list_order 0 ex_renamed ex_only_old).1 !! "r"
  = Some [rename "r" (plainLabel "needs-sig" "" "ededed")
                 (plainLabel "triage/needs-information" "" "d455d0")].
Proof. vm_compute. reflexivity. Qed.

(** The repository has both names: one "migrate". *)
Example SyncLabels_migrates :
  (SyncLabels list_order 0 ex_renamed ex_old_and_new).1 !! "r"
  = Some [move "r" (plainLabel "needs-sig" "" "ededed")
               (plainLabel "triage/needs-information" "" "d455d0")].
Proof. vm_compute. reflexivity. Qed.

(** The required label is created in a repository without labels. *)
Example SyncLabels_creates :
  (SyncLabels list_order 0 ex_one_label ex_no_labels).1 !! "r"
  = Some [create "r" (mkLabel "bug" "d73a4a" "" "both" "" "" [] None None)].
Proof. vm_compute. reflexivity. Qed.

(** ** The calls of a "migrate" update *)

Lemma migrate_issues_calls {St} (gc : client St) org repo c w issues :
  ∀ errs s log,
  ∃ chunks,
    Forall2 (migrate_chunk org repo c w) issues chunks ∧
    (foldl (migrate_issue (gc := recording gc) org repo c w)
           (errs, (s, log)) issues).2.2 = log ++ concat chunks.
Proof.
  induction issues as [|i issues IH]; intros errs s log.
  - exists []. split; [constructor|]. simpl. by rewrite app_nil_r.
  - simpl.
    destruct (AddLabel org repo (github.Number i) (Name w) s)
      as [[e|] s1] eqn:Eadd.
    + destruct (IH (errs ++ [e]) s1
                  (log ++ [(CallAddLabel org repo (github.Number i) (Name w),
                            Some e)])) as (chunks & Hch & Hlog).
      exists ([(CallAddLabel org repo (github.Number i) (Name w), Some e)]
              :: chunks).
      split; [constructor; [apply chunk_add_failed|done]|].
      etrans; [exact Hlog|]. simpl. by rewrite <- app_assoc.
    + simpl.
      destruct (RemoveLabel org repo (github.Number i) (Name c) s1)
        as [rerr s2] eqn:Erem.
      destruct (IH (send errs rerr) s2
                  ((log ++ [(CallAddLabel org repo (github.Number i) (Name w),
                             None)])
                   ++ [(CallRemoveLabel org repo (github.Number i) (Name c),
                        rerr)])) as (chunks & Hch & Hlog).
      exists ([(CallAddLabel org repo (github.Number i) (Name w), None);
               (CallRemoveLabel org repo (github.Number i) (Name c), rerr)]
              :: chunks).
      split; [constructor; [apply chunk_moved|done]|].
      etrans; [exact Hlog|]. simpl. by rewrite <- !app_assoc.
Qed.



(** The calls when issue 1 refuses the new label and issue 2 takes it,
    and the calls when no issue is found. *)
Example scripted_two_issues :
  calls_of (scripted [github.mkIssue 1; github.mkIssue 2] None [1])
           "org" ex_migrate () =
  [(CallFindIssues (migrate_query "org" "r" "needs-sig"
                                  "triage/needs-information") "" false, None);
   (CallAddLabel "org" "r" 1 "triage/needs-information",
    Some "cannot add label");
   (CallAddLabel "org" "r" 2 "triage/needs-information", None);
   (CallRemoveLabel "org" "r" 2 "needs-sig", None)].
Proof. vm_compute. reflexivity. Qed.

Example scripted_no_issue :
  calls_of (scripted [] None []) "org" ex_migrate () =
  [(CallFindIssues (migrate_query "org" "r" "needs-sig"
                                  "triage/needs-information") "" false, None);
   (CallDeleteRepoLabel "org" "r" "needs-sig", None)].
Proof. vm_compute. reflexivity. Qed.



(** The label is deleted although the search for its issues failed. *)
Example scripted_search_failed :
  calls_of (scripted [] (Some "search failed") []) "org" ex_migrate () =
  [(CallFindIssues (migrate_query "org" "r" "needs-sig"
                                  "triage/needs-information") "" false,
    Some "search failed");
   (CallDeleteRepoLabel "org" "r" "needs-sig", None)] ∧
  errors_of (scripted [] (Some "search failed") []) "org" ex_migrate ()
  = Some ["search failed"].
Proof. vm_compute. split; reflexivity. Qed.

(** * Further properties *)

(** ** LabelsByTarget *)

Lemma LabelsByTarget_filter c target :
  LabelsByTarget c target = filter (λ l, target = Target l) (Labels c).
Proof.
  unfold LabelsByTarget.
  enough (∀ l0, foldl (λ labels label,
                   if decide (target = Target label) then labels ++ [label]
                   else labels) l0 (Labels c)
                = l0 ++ filter (λ l, target = Target l) (Labels c)) as H
    by apply H.
  induction (Labels c) as [|x xs IH]; intros l0; simpl.
  - by rewrite app_nil_r.
  - rewrite IH, filter_cons. case_decide; [|done].
    by rewrite <- app_assoc.
Qed.

(** X1. The three lists that WriteDocs asks for hold, together, every
    top-level label whose target is "prs", "issues" or "both" exactly
    once; a label with any other target is in none of them. *)
Theorem LabelsByTarget_partition (c : Configuration) :
  LabelsByTarget c BothTarget ++ LabelsByTarget c IssueTarget
  ++ LabelsByTarget c PRTarget
  ≡ₚ filter (λ l, Target l ∈ LabelTargets) (Labels c).
Proof.
  rewrite !LabelsByTarget_filter.
  induction (Labels c) as [|x xs IH]; [done|].
  rewrite !filter_cons.
  unfold LabelTargets, BothTarget, IssueTarget, PRTarget in *.
  destruct (decide ("both" = Target x)) as [Hb|Hb].
  - rewrite <- Hb. repeat case_decide; try done.
    + simpl. by f_equiv.
    + set_solver.
  - destruct (decide ("issues" = Target x)) as [Hi|Hi].
    + rewrite <- Hi. repeat case_decide; try done.
      * simpl. rewrite <- Permutation_middle. by f_equiv.
      * set_solver.
    + destruct (decide ("prs" = Target x)) as [Hp|Hp].
      * rewrite <- Hp. repeat case_decide; try done.
        -- rewrite app_assoc, <- Permutation_middle, <- app_assoc.
           by f_equiv.
        -- set_solver.
      * case_decide as Hin; [|done].
        set_solver.
Qed.

(** ** GetOrg *)

Lemma Split_cons_sep r sep :
  Split (String sep r) sep = EmptyString :: Split r sep.
Proof. simpl. by rewrite decide_True. Qed.

Lemma Split_nonempty s sep : ∃ h t, Split s sep = h :: t.
Proof.
  induction s as [|a r (h & t & IH)]; simpl; [by eauto|].
  case_decide; [by eauto|]. rewrite IH. by eauto.
Qed.

Lemma Split_cons_other a r sep :
  a ≠ sep →
  ∃ h t, Split r sep = h :: t ∧ Split (String a r) sep = String a h :: t.
Proof.
  intros Hne. destruct (Split_nonempty r sep) as (h & t & Hr).
  exists h, t. split; [done|]. simpl. by rewrite decide_False, Hr.
Qed.

(** The pieces do not mention the separator. *)
Lemma Split_pieces s sep :
  Forall (λ p, mentions p sep = false) (Split s sep).
Proof.
  induction s as [|a r IH]; [by repeat constructor|].
  destruct (decide (a = sep)) as [->|Hne].
  - rewrite Split_cons_sep. by constructor.
  - destruct (Split_cons_other a r sep Hne) as (h & t & Hr & ->).
    rewrite Hr in IH. apply Forall_cons in IH as [Hh Ht].
    constructor; [|done]. simpl. by rewrite decide_False.
Qed.

(** Joining the pieces with the separator gives the string back. *)
Lemma Split_join s sep :
  String.concat (String sep EmptyString) (Split s sep) = s.
Proof.
  induction s as [|a r IH]; [done|].
  destruct (decide (a = sep)) as [->|Hne].
  - rewrite Split_cons_sep.
    destruct (Split_nonempty r sep) as (h & t & Hr). rewrite Hr in *.
    change (String sep (String.concat (String sep EmptyString) (h :: t))
            = String sep r). by rewrite IH.
  - destruct (Split_cons_other a r sep Hne) as (h & t & Hr & ->).
    rewrite Hr in IH. destruct t as [|h' t].
    + simpl in *. by rewrite IH.
    + change (String a (String.concat (String sep EmptyString) (h :: h' :: t))
              = String a r). by rewrite IH.
Qed.

Lemma Split_whole s sep : mentions s sep = false → Split s sep = [s].
Proof.
  induction s as [|a r IH]; [done|]. simpl.
  case_decide; [done|]. intros Hr. by rewrite (IH Hr).
Qed.

Lemma GetOrg_user name :
  mentions name colon = false → GetOrg ("user:" +:+ name) = (name, true).
Proof.
  intros Hname. unfold GetOrg.
  assert (Split ("user:" +:+ name) colon = ["user"; name]) as ->.
  { change ("user:" +:+ name)
      with (String "u" (String "s" (String "e" (String "r"
              (String colon name))))).
    destruct (Split_cons_other "u" (String "s" (String "e" (String "r"
                (String colon name)))) colon) as (h1 & t1 & H1 & ->);
      [done|].
    destruct (Split_cons_other "s" (String "e" (String "r"
                (String colon name))) colon) as (h2 & t2 & H2 & H2');
      [done|].
    destruct (Split_cons_other "e" (String "r" (String colon name))
                colon) as (h3 & t3 & H3 & H3'); [done|].
    destruct (Split_cons_other "r" (String colon name) colon)
      as (h4 & t4 & H4 & H4'); [done|].
    rewrite Split_cons_sep, (Split_whole name colon Hname) in H4.
    congruence. }
  by rewrite decide_True.
Qed.

(** X2. GetOrg answers [(name, true)] exactly for the strings
    ["user:" ++ name] where [name] has no colon; for every other string
    it answers the string itself and [false]. *)
Theorem GetOrg_user_or_org (org : string) :
  (∀ name, GetOrg org = (name, true) ↔
           org = "user:" +:+ name ∧ mentions name colon = false) ∧
  ((GetOrg org).2 = false → (GetOrg org).1 = org).
Proof.
  split.
  - intros name. split.
    + unfold GetOrg. intros H.
      pose proof (Split_join org colon) as Hjoin.
      pose proof (Split_pieces org colon) as Hpieces.
      destruct (Split org colon) as [|d0 [|d1 [|d2 t]]]; try done.
      case_decide as Hd0; [|done]. injection H as ->. subst d0.
      split; [by rewrite <- Hjoin|].
      apply Forall_cons in Hpieces as [_ Hp].
      by apply Forall_cons in Hp as [Hp _].
    + intros [-> Hname]. by apply GetOrg_user.
  - unfold GetOrg. destruct (Split org colon) as [|d0 [|d1 [|d2 t]]];
      try done. by case_decide.
Qed.

(** "user:" without a name is the user with the empty name, and a second
    colon makes the string an organization. *)
Example GetOrg_examples :
  GetOrg "kubernetes" = ("kubernetes", false) ∧
  GetOrg "user:fejta" = ("fejta", true) ∧
  GetOrg "user:" = ("", true) ∧
  GetOrg "user:a:b" = ("user:a:b", false) ∧
  GetOrg "org:fejta" = ("org:fejta", false) ∧
  GetOrg "" = ("", false).
Proof. vm_compute. repeat split; reflexivity. Qed.

(** ** validate *)


(** ** ClassifyLabels stores nothing else *)






Lemma expired_After now l :
  expired now l ↔
  match DeleteAfter l with Some t => After now t | None => false end = true.
Proof.
  unfold expired, After. destruct (DeleteAfter l) as [t|]; split.
  - intros (t' & [= <-] & Hlt). by apply Z.ltb_lt.
  - intros Hlt%Z.ltb_lt. by exists t.
  - by intros (t' & [=] & _).
  - done.
Qed.

(** The four ways of the [switch] of ClassifyLabels. *)
Lemma classify_cases l now p c :
  (p = None ∧ DeleteAfter l = None ∧
   classify l now p c =
   mkClasses (<[ToLower (Name l) := l]> (required c)) (archaic c) (dead c)) ∨
  (expired now l ∧
   classify l now p c =
   mkClasses (required c) (archaic c) (<[ToLower (Name l) := l]> (dead c))) ∨
  (∃ top, p = Some top ∧ ¬ expired now l ∧
   classify l now p c =
   mkClasses (required c)
             (<[ToLower (Name l) := set_parent l (Some top)]> (archaic c))
             (dead c)) ∨
  (p = None ∧ ¬ expired now l ∧ classify l now p c = c).
Proof.
  pose proof (expired_After now l) as Hexp. unfold classify.
  destruct p as [p|], (DeleteAfter l) as [t|] eqn:Hda; simpl.
  - destruct (After now t) eqn:Haft.
    + right. left. split; [by apply Hexp|done].
    + right. right. left. exists p. split; [done|]. split; [|done].
      intros H%Hexp. congruence.
  - right. right. left. exists p. split; [done|]. split; [|done].
    by intros H%Hexp.
  - destruct (After now t) eqn:Haft.
    + right. left. split; [by apply Hexp|done].
    + right. right. right. split; [done|]. split; [|done].
      intros H%Hexp. congruence.
  - left. by repeat split.
Qed.

Lemma classify_origin now ns c0 c l p :
  (l, p) ∈ ns → origin_ok now ns c0 c →
  origin_ok now ns c0 (classify l now p c).
Proof.
  intros Hin (Hr & Hd & Ha).
  destruct (classify_cases l now p c)
    as [(-> & Hda & ->)|[(Hexp & ->)|[(top & -> & Hexp & ->)
                                      |(-> & Hexp & ->)]]].
  - split; [|by split]. simpl. intros k v.
    rewrite lookup_insert_Some. intros [[<- <-]|[_ Hold]]; [|by apply Hr].
    by right.
  - split; [done|]. split; [|done]. simpl. intros k v.
    rewrite lookup_insert_Some. intros [[<- <-]|[_ Hold]]; [|by apply Hd].
    right. by exists p.
  - split; [done|]. split; [done|]. simpl. intros k v.
    rewrite lookup_insert_Some. intros [[<- <-]|[_ Hold]]; [|by apply Ha].
    right. by exists l, top.
  - by split.
Qed.

Lemma ClassifyLabels_origin labels now c0 :
  origin_ok now (nodes labels None) c0 (ClassifyLabels labels c0 now None).
Proof.
  rewrite ClassifyLabels_nodes.
  apply (foldl_invariant_in (origin_ok now (nodes labels None) c0)).
  - intros c [l p] Hin. by apply classify_origin.
  - repeat split; intros k v; by left.
Qed.


(** ** A name is in one map at most *)

Lemma classify_one_map l now p c :
  required c !! ToLower (Name l) = None →
  archaic c !! ToLower (Name l) = None →
  dead c !! ToLower (Name l) = None →
  let c' := classify l now p c in
  ¬ (is_Some (required c' !! ToLower (Name l)) ∧
     is_Some (archaic c' !! ToLower (Name l))) ∧
  ¬ (is_Some (required c' !! ToLower (Name l)) ∧
     is_Some (dead c' !! ToLower (Name l))) ∧
  ¬ (is_Some (archaic c' !! ToLower (Name l)) ∧
     is_Some (dead c' !! ToLower (Name l))).
Proof.
  intros Hr Ha Hd c'. subst c'.
  destruct (classify_cases l now p c)
    as [(_ & _ & ->)|[(_ & ->)|[(top & _ & _ & ->)|(_ & _ & ->)]]];
    simpl; rewrite ?Hr, ?Ha, ?Hd;
    repeat split; intros [[? ?] [? ?]]; done.
Qed.

(** X5. In a tree without duplicate names, no name is in two of the maps
    [required], [archaic] and [dead]. *)
Theorem ClassifyLabels_disjoint (labels : list Label) (now : Z) :
  (validate labels "" ∅).2 = None →
  let c := ClassifyLabels labels no_classes now None in
  dom (required c) ## dom (archaic c) ∧
  dom (required c) ## dom (dead c) ∧
  dom (archaic c) ## dom (dead c).
Proof.
  intros Hv c.
  assert (∀ k, (is_Some (required c !! k) ∨ is_Some (archaic c !! k)
                ∨ is_Some (dead c !! k)) →
               ¬ (is_Some (required c !! k) ∧ is_Some (archaic c !! k)) ∧
               ¬ (is_Some (required c !! k) ∧ is_Some (dead c !! k)) ∧
               ¬ (is_Some (archaic c !! k) ∧ is_Some (dead c !! k))) as H.
  { intros k Hk.
    assert (∃ l p, (l, p) ∈ nodes labels None ∧ k = ToLower (Name l))
      as (l & p & Hin & ->).
    { destruct (ClassifyLabels_origin labels now no_classes)
        as (Hr & Hd & Ha). fold c in Hr, Hd, Ha.
      destruct Hk as [[v Hk]|[[v Hk]|[v Hk]]].
      - apply Hr in Hk as [Hk|(? & ? & _)];
          [by (simpl in Hk; rewrite lookup_empty in Hk)|by eauto].
      - apply Ha in Hk as [Hk|(l & top & ? & _ & ? & _)];
          [by (simpl in Hk; rewrite lookup_empty in Hk)|by eauto].
      - apply Hd in Hk as [Hk|(p & ? & ? & _)];
          [by (simpl in Hk; rewrite lookup_empty in Hk)|by eauto]. }
    destruct (ClassifyLabels_at labels now no_classes l p Hv Hin)
      as (c1 & (H1 & H2 & H3) & (H1' & H2' & H3')).
    fold c in H1', H2', H3'. rewrite H1', H2', H3'.
    apply classify_one_map; by rewrite ?H1, ?H2, ?H3. }
  repeat split; intros k Hk1%elem_of_dom Hk2%elem_of_dom;
    destruct (H k) as (Hra & Hrd & Had); auto.
Qed.

Lemma ClassifyLabels_disjoint_witness :
  (validate ex_tree "" ∅).2 = None ∧
  let c := ClassifyLabels ex_tree no_classes 10 None in
  dom (required c) ## dom (archaic c) ∧
  dom (required c) ## dom (dead c) ∧
  dom (archaic c) ## dom (dead c).
Proof.
  assert ((validate ex_tree "" ∅).2 = None) as Hv
    by (vm_compute; reflexivity).
  split; [exact Hv|]. exact (ClassifyLabels_disjoint ex_tree 10 Hv).
Defined.

(** With a duplicate name the maps can overlap: the name [old] is
    required and dead. *)
Example ClassifyLabels_overlap :
  let c := ClassifyLabels
             [ex_old; mkLabel "Old" "cccccc" "" "both" "" "" [] None None]
             no_classes 10 None in
  is_Some (required c !! "old") ∧ is_Some (dead c !! "old").
Proof. vm_compute. split; by eexists. Qed.

(** ** What the clock changes *)

Lemma classify_required_same l now now' p c c' :
  required c = required c' →
  required (classify l now p c) = required (classify l now' p c').
Proof.
  intros H. unfold classify.
  destruct p as [p|], (DeleteAfter l) as [t|]; simpl;
    repeat case_match; simpl; congruence.
Qed.

Lemma foldl_classify_required now now' ns :
  ∀ c c', required c = required c' →
  required (foldl (classify_node now) c ns)
  = required (foldl (classify_node now') c' ns).
Proof.
  induction ns as [|[l p] ns IH]; intros c c' H; simpl; [done|].
  apply IH. by apply classify_required_same.
Qed.

Lemma foldl_classify_dead_dom now ns :
  ∀ c k,
  k ∈ dom (dead (foldl (classify_node now) c ns)) ↔
  k ∈ dom (dead c) ∨
  ∃ n, n ∈ ns ∧ expired now n.1 ∧ ToLower (Name n.1) = k.
Proof.
  induction ns as [|[l p] ns IH]; intros c k; simpl.
  - split; [by left|]. intros [?|(n & ?%elem_of_nil & _)]; done.
  - rewrite IH. unfold classify_node at 1. simpl. split.
    + intros [Hk|(n & Hn & He & Hk)].
      * destruct (classify_cases l now p c)
          as [(_ & _ & E)|[(Hexp & E)|[(top & _ & _ & E)|(_ & _ & E)]]];
          rewrite E in Hk; simpl in Hk; [by left| |by left|by left].
        rewrite dom_insert in Hk.
        apply elem_of_union in Hk as [->%elem_of_singleton|Hk];
          [|by left].
        right. exists (l, p). split; [by left|done].
      * right. exists n. split; [by right|done].
    + intros [Hk|(n & [->|Hn]%elem_of_cons & He & Hk)].
      * left.
        destruct (classify_cases l now p c)
          as [(_ & _ & E)|[(Hexp & E)|[(top & _ & _ & E)|(_ & _ & E)]]];
          rewrite E; simpl; try done.
        rewrite dom_insert. apply elem_of_union. by right.
      * left. simpl in *.
        destruct (classify_cases l now p c)
          as [(_ & Hda & E)|[(Hexp & E)|[(top & _ & Hexp & E)
                                         |(_ & Hexp & E)]]];
          rewrite E; simpl; try done.
        -- destruct He as (t & Ht & _). congruence.
        -- rewrite dom_insert, <- Hk. apply elem_of_union. left.
           by apply elem_of_singleton.
      * right. by exists n.
Qed.

Lemma foldl_classify_archaic_dom now ns :
  ∀ c k,
  k ∈ dom (archaic (foldl (classify_node now) c ns)) ↔
  k ∈ dom (archaic c) ∨
  ∃ n, n ∈ ns ∧ is_Some n.2 ∧ ¬ expired now n.1 ∧ ToLower (Name n.1) = k.
Proof.
  induction ns as [|[l p] ns IH]; intros c k; simpl.
  - split; [by left|]. intros [?|(n & ?%elem_of_nil & _)]; done.
  - rewrite IH. unfold classify_node at 1. simpl. split.
    + intros [Hk|(n & Hn & Hp & He & Hk)].
      * destruct (classify_cases l now p c)
          as [(_ & _ & E)|[(Hexp & E)|[(top & -> & Hexp & E)|(_ & _ & E)]]];
          rewrite E in Hk; simpl in Hk; [by left|by left| |by left].
        rewrite dom_insert in Hk.
        apply elem_of_union in Hk as [->%elem_of_singleton|Hk];
          [|by left].
        right. exists (l, Some top). split; [by left|]. by split.
      * right. exists n. split; [by right|done].
    + intros [Hk|(n & [->|Hn]%elem_of_cons & Hp & He & Hk)].
      * left.
        destruct (classify_cases l now p c)
          as [(_ & _ & E)|[(Hexp & E)|[(top & _ & _ & E)|(_ & _ & E)]]];
          rewrite E; simpl; try done.
        rewrite dom_insert. apply elem_of_union. by right.
      * left. simpl in *.
        destruct (classify_cases l now p c)
          as [(-> & _ & E)|[(Hexp & E)|[(top & _ & Hexp & E)
                                        |(-> & Hexp & E)]]];
          rewrite E; simpl; try done; try (by destruct Hp).
        rewrite dom_insert, <- Hk. apply elem_of_union. left.
        by apply elem_of_singleton.
      * right. by exists n.
Qed.

(** X6. Between two runs, the later one at a later time: [required] is
    the same, every dead name is still dead, and no name has become
    archaic. *)
Theorem ClassifyLabels_later (labels : list Label) (c0 : Classes)
    (now now' : Z) :
  now ≤ now' →
  let c := ClassifyLabels labels c0 now None in
  let c' := ClassifyLabels labels c0 now' None in
  required c = required c' ∧
  dom (dead c) ⊆ dom (dead c') ∧
  dom (archaic c') ⊆ dom (archaic c).
Proof.
  intros Hle c c'. subst c c'. rewrite !ClassifyLabels_nodes.
  assert (∀ l, expired now l → expired now' l) as Hmono.
  { intros l (t & Ht & Hlt). exists t. split; [done|lia]. }
  split; [by apply foldl_classify_required|]. split.
  - intros k. rewrite !foldl_classify_dead_dom.
    intros [Hk|(n & Hn & He & Hk)]; [by left|].
    right. exists n. auto.
  - intros k. rewrite !foldl_classify_archaic_dom.
    intros [Hk|(n & Hn & Hp & He & Hk)]; [by left|].
    right. exists n. split; [done|]. split; [done|]. split; [|done].
    intros H. by apply He, Hmono.
Qed.

Lemma ClassifyLabels_later_witness :
  0 ≤ 10 ∧
  let c := ClassifyLabels ex_tree no_classes 0 None in
  let c' := ClassifyLabels ex_tree no_classes 10 None in
  required c = required c' ∧
  dom (dead c) ⊆ dom (dead c') ∧
  dom (archaic c') ⊆ dom (archaic c).
Proof.
  assert (0 ≤ 10) as Hle by lia.
  split; [exact Hle|].
  exact (ClassifyLabels_later ex_tree no_classes 0 10 Hle).
Defined.

(** ** The actions of SyncLabels *)

Lemma repo_loops_all (P : Update → Prop) o c r labels :
  (∀ l, P (kill r l)) → (∀ l, P (create r l)) →
  (∀ x y, P (rename r x y)) → (∀ l, P (change r l)) →
  (∀ x y, P (move r x y)) →
  actions_all P (repo_loops o c r labels []).
Proof.
  intros Hkill Hcreate Hrename Hchange Hmove. unfold repo_loops.
  apply foldl_invariant.
  { intros st [name l] [H1 H2]. unfold required_step, actions_all.
    repeat case_match; simpl; split; try done;
      apply Forall_app; (split; [done|]); by repeat constructor. }
  apply foldl_invariant.
  { intros st [name l] [H1 H2]. unfold migrate_step, actions_all.
    repeat case_match; simpl; split; try done;
      apply Forall_app; (split; [done|]); by repeat constructor. }
  apply foldl_invariant.
  { intros st l [H1 H2]. unfold kill_step, actions_all. simpl.
    destruct (dead c !! ToLower (Name l)); split; try done.
    apply Forall_app. split; [done|]. by repeat constructor. }
  split; constructor.
Qed.

Lemma repoActions_all (P : Update → Prop) o c r ls :
  (∀ l, P (kill r l)) → (∀ l, P (create r l)) →
  (∀ x y, P (rename r x y)) → (∀ l, P (change r l)) →
  (∀ x y, P (move r x y)) →
  Forall P (repoActions o c r ls).
Proof.
  intros Hkill Hcreate Hrename Hchange Hmove. unfold repoActions.
  destruct (validate (convert ls) "" ∅) as [s [e|]]; [constructor|].
  destruct (repo_loops_all P o c r (convert ls)) as [H1 H2]; try done.
  apply Forall_app. by split.
Qed.

(** What an entry of the RepoUpdates of SyncLabels is. *)
Lemma SyncLabels_entry o now config repos r acts :
  range_ok o →
  (SyncLabels o now config repos).1 !! r = Some acts →
  Configuration_validate config = None ∧
  ∃ ls, repos !! r = Some ls ∧ acts ≠ [] ∧
        acts = repoActions o (ClassifyLabels (Labels config) no_classes
                                now None) r ls.
Proof.
  intros Ho Hacts.
  destruct (Configuration_validate config) as [e|] eqn:Hv.
  { unfold SyncLabels in Hacts. by rewrite Hv in Hacts. }
  split; [done|].
  rewrite (SyncLabels_lookup o now config repos r Ho Hv) in Hacts.
  destruct (repos !! r) as [ls|]; [|done]. simpl in Hacts.
  exists ls. split; [done|].
  destruct (repoActions _ _ r ls) as [|a l] eqn:E; [done|].
  simpl in Hacts. injection Hacts as <-. by split.
Qed.

(** X7. Every entry of the RepoUpdates that SyncLabels returns is for a
    repository of the snapshot, is not empty, and holds only actions that
    name this repository and are well formed: "missing" has [Wanted]
    only, "dead" has [Current] only, "rename", "change" and "migrate"
    have both, and there is no other kind. *)
Theorem SyncLabels_well_formed (o : RangeOrder) (now : Z)
    (config : Configuration) (repos : gmap string (list github.Label))
    (r : string) (acts : list Update) :
  range_ok o →
  (SyncLabels o now config repos).1 !! r = Some acts →
  is_Some (repos !! r) ∧ acts ≠ [] ∧
  Forall (λ a, repo a = r ∧ well_formed a) acts.
Proof.
  intros Ho Hacts.
  destruct (SyncLabels_entry o now config repos r acts Ho Hacts)
    as (_ & ls & Hr & Hne & ->).
  split; [by eexists|]. split; [done|].
  apply repoActions_all; intros; (split; [done|]); unfold well_formed;
    simpl.
  - right. left. by eauto.
  - left. by eauto.
  - right. right. by eauto 10.
  - right. right. by eauto 10.
  - right. right. by eauto 10.
Qed.

Lemma SyncLabels_well_formed_witness :
  range_ok list_order ∧
  (SyncLabels list_order 10 (mkConfiguration ex_tree) ex_snapshot).1 !! "r"
  = Some ex_snapshot_actions ∧
  is_Some (ex_snapshot !! "r") ∧ ex_snapshot_actions ≠ [] ∧
  Forall (λ a, repo a = "r" ∧ well_formed a) ex_snapshot_actions.
Proof.
  assert ((SyncLabels list_order 10 (mkConfiguration ex_tree)
             ex_snapshot).1 !! "r" = Some ex_snapshot_actions) as Hacts
    by (vm_compute; reflexivity).
  split; [exact list_order_ok|]. split; [exact Hacts|].
  exact (SyncLabels_well_formed list_order 10 (mkConfiguration ex_tree)
           ex_snapshot "r" ex_snapshot_actions list_order_ok Hacts).
Defined.





(** ** A repository without labels *)

Lemma required_loop_creates r req :
  ∀ st, current st = ∅ →
  foldl (required_step r) st req =
  mkRepoState (current st) (actions st ++ ((λ e, create r e.2) <$> req))
              (moveActions st).
Proof.
  induction req as [|[name l] req IH]; intros st Hst; simpl.
  - rewrite app_nil_r. by destruct st.
  - rewrite IH.
    + unfold required_step. rewrite Hst, lookup_empty. simpl.
      by rewrite <- app_assoc.
    + unfold required_step. by rewrite Hst, lookup_empty.
Qed.

(** X9. For a repository without labels, SyncLabels returns one "missing"
    action for every required label, in the order of the loop over
    [required], and nothing else. *)
Theorem SyncLabels_empty_repo (o : RangeOrder) (now : Z)
    (config : Configuration) (repos : gmap string (list github.Label))
    (r : string) :
  range_ok o → Configuration_validate config = None →
  repos !! r = Some [] →
  let c := ClassifyLabels (Labels config) no_classes now None in
  (SyncLabels o now config repos).1 !! r =
  entry ((λ e, create r e.2) <$> range_required o r (required c)).
Proof.
  intros Ho Hv Hr c.
  rewrite (SyncLabels_lookup o now config repos r Ho Hv), Hr. simpl.
  fold c. f_equal. unfold repoActions, repo_loops. simpl.
  rewrite (foldl_fixed (migrate_step r)).
  2:{ intros [name l] _. unfold migrate_step. simpl.
      by rewrite lookup_empty. }
  rewrite required_loop_creates by done. simpl. by rewrite app_nil_r.
Qed.

Lemma SyncLabels_empty_repo_witness :
  range_ok list_order ∧
  Configuration_validate (mkConfiguration ex_tree) = None ∧
  ex_two_repos !! "q" = Some [] ∧
  let c := ClassifyLabels ex_tree no_classes 10 None in
  (SyncLabels list_order 10 (mkConfiguration ex_tree) ex_two_repos).1 !! "q"
  = entry ((λ e, create "q" e.2)
             <$> range_required list_order "q" (required c)).
Proof.
  assert (Configuration_validate (mkConfiguration ex_tree) = None) as Hv
    by (vm_compute; reflexivity).
  assert (ex_two_repos !! "q" = Some []) as Hq
    by (vm_compute; reflexivity).
  split; [exact list_order_ok|]. split; [exact Hv|]. split; [exact Hq|].
  exact (SyncLabels_empty_repo list_order 10 (mkConfiguration ex_tree)
           ex_two_repos "q" list_order_ok Hv Hq).
Defined.

(** ** Deletions *)











(** ** Labels that the configuration does not mention *)






(** ** Required labels that are out of date *)




(** ** The errors of an update *)

Lemma omap_snd_send (call : Call) (err : option string) :
  omap snd [(call, err)] = send [] err.
Proof. by destruct err. Qed.




(** ** Applying the actions of SyncLabels *)

Lemma repoActions_well_formed o c r ls :
  Forall well_formed (repoActions o c r ls).
Proof.
  apply repoActions_all; intros; unfold well_formed; simpl.
  - right. left. by eauto.
  - left. by eauto.
  - right. right. by eauto 10.
  - right. right. by eauto 10.
  - right. right. by eauto 10.
Qed.

Lemma well_formed_runs {St} (gc : client St) org r a s :
  well_formed a →
  is_Some (errors_of gc org (mkRepoUpdate r a) s) ∧
  calls_of gc org (mkRepoUpdate r a) s ≠ [].
Proof.
  unfold errors_of, calls_of, runUpdate. simpl.
  intros [(Hw & [w Hwanted] & _)|[(Hw & _ & [c Hcur])
                                  |(Hw & [w Hwanted] & [c Hcur])]].
  - rewrite Hw, Hwanted. rewrite !decide_True by done. simpl.
    destruct (AddRepoLabel org r (Name w) (Description w) (Color w) s).
    simpl. split; [by eexists|done].
  - rewrite Hw, Hcur. rewrite decide_False by done.
    rewrite decide_False by (by intros [?|?]).
    rewrite !decide_True by done. simpl.
    destruct (DeleteRepoLabel org r (Name c) s).
    simpl. split; [by eexists|done].
  - rewrite Hwanted, Hcur. destruct Hw as [Hw|[Hw|Hw]]; rewrite Hw.
    + rewrite decide_False by done. rewrite !decide_True by (by right).
      simpl. destruct (UpdateRepoLabel _ _ _ _ _ _ s).
      simpl. split; [by eexists|done].
    + rewrite decide_False by done. rewrite !decide_True by (by left).
      simpl. destruct (UpdateRepoLabel _ _ _ _ _ _ s).
      simpl. split; [by eexists|done].
    + rewrite decide_False by done.
      rewrite decide_False by (by intros [?|?]).
      rewrite decide_False by done. rewrite !decide_True by done. simpl.
      destruct (FindIssues _ "" false s) as [[issues ferr] s1].
      split.
      * destruct (decide (length issues = 0%nat));
          [destruct (DeleteRepoLabel org r (Name c) s1)|];
          destruct (foldl _ _ issues); by eexists.
      * destruct (decide (length issues = 0%nat)).
        -- simpl. destruct (DeleteRepoLabel org r (Name c) s1) as [derr s2].
           destruct (migrate_issues_calls gc org r c w issues
                       (send (send [] ferr) derr) s2
                       [(CallFindIssues (migrate_query org r (Name c)
                                                       (Name w)) "" false,
                         ferr);
                        (CallDeleteRepoLabel org r (Name c), derr)])
             as (chunks & _ & Hlog).
           name_loop_result EF. simpl.
           pose proof (eq_trans (eq_sym (f_equal (λ x, x.2.2) EF)) Hlog)
             as E. simpl in E. by rewrite E.
        -- destruct (migrate_issues_calls gc org r c w issues
                       (send [] ferr) s1
                       [(CallFindIssues (migrate_query org r (Name c)
                                                       (Name w)) "" false,
                         ferr)])
             as (chunks & _ & Hlog).
           name_loop_result EF. simpl.
           pose proof (eq_trans (eq_sym (f_equal (λ x, x.2.2) EF)) Hlog)
             as E. simpl in E. by rewrite E.
Qed.

(** X14. Every action that SyncLabels returns can be run by DoUpdates:
    the fields that the update reads are set, so there is no nil
    dereference, and at least one call is made to the client, so the
    action is never answered with "unknown label operation". *)
Theorem SyncLabels_actions_run (o : RangeOrder) (now : Z)
    (config : Configuration) (repos : gmap string (list github.Label))
    (r : string) (acts : list Update) (a : Update)
    {St : Type} (gc : client St) (org : string) (s : St) :
  range_ok o →
  (SyncLabels o now config repos).1 !! r = Some acts →
  a ∈ acts →
  is_Some (errors_of gc org (mkRepoUpdate r a) s) ∧
  calls_of gc org (mkRepoUpdate r a) s ≠ [].
Proof.
  intros Ho Hacts Ha.
  destruct (SyncLabels_entry o now config repos r acts Ho Hacts)
    as (_ & ls & _ & _ & ->).
  apply well_formed_runs.
  pose proof (repoActions_well_formed o
                (ClassifyLabels (Labels config) no_classes now None) r ls)
    as Hwf.
  by apply (proj1 (Forall_forall _ _) Hwf).
Qed.

Lemma SyncLabels_actions_run_witness :
  let a := kill "r" (plainLabel "old" "" "cccccc") in
  let gc := scripted [] None [] in
  range_ok list_order ∧
  (SyncLabels list_order 10 (mkConfiguration ex_tree) ex_snapshot).1 !! "r"
  = Some ex_snapshot_actions ∧
  a ∈ ex_snapshot_actions ∧
  is_Some (errors_of gc "org" (mkRepoUpdate "r" a) ()) ∧
  calls_of gc "org" (mkRepoUpdate "r" a) () ≠ [].
Proof.
  intros a gc.
  assert ((SyncLabels list_order 10 (mkConfiguration ex_tree)
             ex_snapshot).1 !! "r" = Some ex_snapshot_actions) as Hacts
    by (vm_compute; reflexivity).
  assert (a ∈ ex_snapshot_actions) as Hin by left.
  split; [exact list_order_ok|]. split; [exact Hacts|]. split; [exact Hin|].
  exact (SyncLabels_actions_run list_order 10 (mkConfiguration ex_tree)
           ex_snapshot "r" ex_snapshot_actions a gc "org" ()
           list_order_ok Hacts Hin).
Defined.

(** ** LoadRepos *)

Lemma keep_filter (P : Repo → bool) repos :
  foldl (λ rl r, if P r then rl ++ [r] else rl) [] repos
  = filter (λ r, P r) repos.
Proof.
  enough (∀ l0, foldl (λ rl r, if P r then rl ++ [r] else rl) l0 repos
                = l0 ++ filter (λ r, P r) repos) as H by apply H.
  induction repos as [|x xs IH]; intros l0; simpl.
  - by rewrite app_nil_r.
  - rewrite IH, filter_cons.
    case_decide as Hd; destruct (P x); simpl in *; try done.
    by rewrite <- app_assoc.
Qed.

(** X15. For ["user:" ++ name], LoadRepos asks the client for the
    repositories of the user [name] and returns those that the filter
    accepts for [name], without the prefix, in the order received; when
    the client returns an error, LoadRepos returns the error and no
    repository. *)
Theorem LoadRepos_user {St : Type} (gc : lister St) (name : string)
    (filt : string → string → bool) (s s' : St) (repos : list Repo)
    (err : option string) :
  mentions name colon = false →
  GetRepos name true s = ((repos, err), s') →
  LoadRepos ("user:" +:+ name) filt s =
  (match err with
   | Some e => ([], Some e)
   | None => (filter (λ r, filt name (Repo_Name r)) repos, None)
   end, s').
Proof.
  intros Hname Hget. unfold LoadRepos.
  rewrite (GetOrg_user name Hname), Hget.
  destruct err as [e|]; [done|].
  by rewrite (keep_filter (λ r, filt name (Repo_Name r))).
Qed.

Lemma LoadRepos_user_witness :
  let repos := [mkRepo "test-infra"; mkRepo "community"] in
  let gc := listing repos None in
  let filt := λ org repo : string,
                bool_decide (org +:+ "/" +:+ repo = "fejta/test-infra") in
  mentions "fejta" colon = false ∧
  GetRepos (lister := gc) "fejta" true () = ((repos, None), ()) ∧
  LoadRepos (gc := gc) ("user:" +:+ "fejta") filt () =
  ((filter (λ r, filt "fejta" (Repo_Name r)) repos, None), ()).
Proof.
  intros repos gc filt.
  split; [reflexivity|]. split; [reflexivity|].
  exact (LoadRepos_user gc "fejta" filt () () repos None eq_refl eq_refl).
Defined.
